(** * doc-sum: adaptive chunking and the resilient Groq query protocol

    A shallow embedding of the summarisation scripts of the repository:
    - [split_document_into_chunks] and [groq_query] of [testdocsum.py];
    - [summarize_chunk] of [v9docsumvim.py] (module [V9]);
    - the top-level script of [old_code/v11docsumvim.py] (module [V11]).

    Python [str] values are sequences of Unicode code points; the remote
    client, [time.sleep] and the interpreter's recursion budget are made
    explicit. *)

From Stdlib Require Import Ascii String.
From Stdlib Require Import List ZArith NArith Lia Bool.
Import ListNotations.

Open Scope Z_scope.

(* ================================================================== *)
(** * Python strings *)

(** A character is a Unicode code point, a [str] a list of them. *)
Definition char := N.
Definition str := list char.

(** A literal, from its ASCII spelling. *)
Definition lit (s : string) : str := map N_of_ascii (list_ascii_of_string s).
Arguments lit s%_string.

(** [len(s)] *)
Definition len (s : str) : Z := Z.of_nat (List.length s).

(** Truth value of a string: [if s:] holds iff [s] is not empty. *)
Definition truthy (s : str) : bool :=
  match s with
  | [] => false
  | _ :: _ => true
  end.

(** The newline character, and the separator ["\n\n"]. *)
Definition NL : char := 10%N.
Definition is_nl (c : char) : bool := N.eqb c NL.
Definition SEP : str := [NL; NL].

(** [str.isspace] on one character: CPython's table of white space. *)
Definition isspace (c : char) : bool :=
  ((9 <=? c) && (c <=? 13) || (28 <=? c) && (c <=? 32)
   || (c =? 133) || (c =? 160) || (c =? 5760)
   || (8192 <=? c) && (c <=? 8202)
   || (c =? 8232) || (c =? 8233) || (c =? 8239) || (c =? 8287)
   || (c =? 12288))%N.

(** [s.lstrip()] *)
Fixpoint lstrip (s : str) : str :=
  match s with
  | [] => []
  | c :: s' => if isspace c then lstrip s' else s
  end.

(** [s.rstrip()]: a character is kept when something is kept after it or
    when it is not white space. *)
Fixpoint rstrip (s : str) : str :=
  match s with
  | [] => []
  | c :: s' =>
      match rstrip s' with
      | [] => if isspace c then [] else [c]
      | r => c :: r
      end
  end.

(** [s.strip()] *)
Definition strip (s : str) : str := rstrip (lstrip s).

(** [sep.join(parts)] *)
Fixpoint join (sep : str) (parts : list str) : str :=
  match parts with
  | [] => []
  | [p] => p
  | p :: rest => p ++ sep ++ join sep rest
  end.

(** [s.startswith(prefix)] and [sub in s]. *)
Fixpoint startswith (prefix s : str) : bool :=
  match prefix, s with
  | [], _ => true
  | _ :: _, [] => false
  | a :: prefix', c :: s' => N.eqb a c && startswith prefix' s'
  end.

Fixpoint contains (sub s : str) : bool :=
  startswith sub s ||
  match s with
  | [] => false
  | _ :: s' => contains sub s'
  end.

(* ------------------------------------------------------------------ *)
(** ** [re.split(r'\n{2,}', text)]

    The pattern matches a maximal run of two or more newlines, leftmost
    first.  [re_split_go in_match text] scans [text]; [in_match] says that
    the characters just before belong to a match that is still being
    consumed.  The result always has a first piece, to which the caller's
    characters are pushed. *)

Definition starts_nl (s : str) : bool :=
  match s with
  | c :: _ => is_nl c
  | [] => false
  end.

Definition push_front (c : char) (pieces : list str) : list str :=
  match pieces with
  | p :: pieces' => (c :: p) :: pieces'
  | [] => [[c]]
  end.

Fixpoint re_split_go (in_match : bool) (text : str) : list str :=
  match text with
  | [] => [[]]
  | c :: rest =>
      if in_match then
        if is_nl c then re_split_go true rest
        else push_front c (re_split_go false rest)
      else
        if is_nl c && starts_nl rest then [] :: re_split_go true rest
        else push_front c (re_split_go false rest)
  end.

Definition re_split (text : str) : list str := re_split_go false text.

(* ================================================================== *)
(** * The chunker: [split_document_into_chunks] (testdocsum.py) *)

(** [[para.strip() for para in paragraphs if para.strip()]] *)
Definition cleaned_paragraphs (text : str) : list str :=
  map strip (filter (fun para => truthy (strip para)) (re_split text)).

(** One iteration of the packing loop on the state
    [(chunks, current_chunk)]. *)
Definition pack (max_chunk_size : Z) (st : list str * str) (para : str)
  : list str * str :=
  let '(chunks, current_chunk) := st in
  if len current_chunk + len para + 2 >? max_chunk_size then
    ((if truthy current_chunk then chunks ++ [strip current_chunk] else chunks),
     para)
  else
    (chunks,
     (if truthy current_chunk then current_chunk ++ SEP else current_chunk)
       ++ para).

(** What follows the loop: the last buffer is appended when not empty. *)
Definition flush (st : list str * str) : list str :=
  let '(chunks, current_chunk) := st in
  if truthy current_chunk then chunks ++ [strip current_chunk] else chunks.

Definition split_document_into_chunks (text : str) (max_chunk_size : Z)
  : list str :=
  if negb (truthy text) then []
  else flush (fold_left (pack max_chunk_size) (cleaned_paragraphs text) ([], [])).

(** The default of the parameter [max_chunk_size]. *)
Definition default_max_chunk_size : Z := 4000.

(* ------------------------------------------------------------------ *)
(** ** Predicates used to state the properties of the chunker *)

(** A string is [stripped] when it is not empty and [strip] has nothing to
    remove at either end. *)
Definition stripped (s : str) : Prop :=
  s <> [] /\ lstrip s = s /\ rstrip s = s.

(** No two consecutive newlines. *)
Fixpoint noblank (s : str) : bool :=
  match s with
  | [] => true
  | c :: s' => negb (is_nl c && starts_nl s') && noblank s'
  end.

(** A cleaned paragraph: stripped, not empty, without a blank line. *)
Definition para_ok (p : str) : Prop := stripped p /\ noblank p = true.

(** [packs s cur rest]: starting from the buffer [cur], the loop appends
    every paragraph of [rest] to the buffer, none of them overflowing. *)
Fixpoint packs (s : Z) (cur : str) (rest : list str) : bool :=
  match rest with
  | [] => true
  | p :: rest' => (len cur + len p + 2 <=? s) && packs s (cur ++ SEP ++ p) rest'
  end.

(** The paragraphs of one chunk. *)
Definition good_group (s : Z) (g : list str) : bool :=
  match g with
  | [] => false
  | p :: rest => packs s p rest
  end.

(* ================================================================== *)
(** * The remote summarizer and the effects of the scripts *)

(** A chat completion, seen through [choices[0].message.content]. *)
Record ChatCompletion := { content : str }.

(** Exceptions, each with its message [str(e)]: the three classes of the
    Groq client that the scripts catch, any other exception of the client,
    and the [Exception] that [summarize_chunk] of [v9docsumvim.py] raises. *)
Inductive exn :=
| InternalServerError (msg : str)
| RateLimitError (msg : str)
| BadRequestError (msg : str)
| OtherError (msg : str)
| PyException (msg : str).

Definition response : Type := exn + ChatCompletion.

(** The client: [create w system user] is
    [client.chat.completions.create] on the two messages, in the state [w]
    of the service; [sleep w seconds] is what [time.sleep] does to that
    state.  The model name is the same constant in every script. *)
Record Client := {
  world : Type;
  create : world -> str -> str -> response * world;
  sleep : world -> Z -> world
}.

(** What a run does, in order. *)
Inductive event :=
| EvCreate (user : str) (r : response)   (* a request and its answer *)
| EvSleep (seconds : Z)                  (* [time.sleep(seconds)] *)
| EvSplit (text : str)                   (* [split_document_into_chunks(text)] *)
| EvAttemptFailed (attempts : Z) (e : exn). (* the line printed by [summarize_chunk] *)

(** How a call ends: it returns, it raises an exception of the script or of
    the client, or the recursion budget is used up before it ends
    ([OutOfFuel]).  In CPython the budget is the recursion limit of the
    interpreter, whose [RecursionError] no script raises or catches; with
    no limit the call would not end at all. *)
Inductive outcome (A : Type) :=
| Returned (a : A)
| Raised (e : exn)
| OutOfFuel.
Arguments Returned {A} a.
Arguments Raised {A} e.
Arguments OutOfFuel {A}.

(** A computation: from the state of the service to an outcome, the new
    state and the events of the run. *)
Definition M (cl : Client) (A : Type) : Type :=
  world cl -> outcome A * world cl * list event.

Definition ret {cl A} (a : A) : M cl A := fun w => (Returned a, w, []).

Definition raise {cl A} (e : exn) : M cl A := fun w => (Raised e, w, []).

Definition out_of_fuel {cl A} : M cl A := fun w => (OutOfFuel, w, []).

Definition bind {cl A B} (m : M cl A) (k : A -> M cl B) : M cl B :=
  fun w =>
    match m w with
    | (Returned a, w1, tr1) =>
        let '(o, w2, tr2) := k a w1 in (o, w2, tr1 ++ tr2)
    | (Raised e, w1, tr1) => (Raised e, w1, tr1)
    | (OutOfFuel, w1, tr1) => (OutOfFuel, w1, tr1)
    end.

(** [try: m except e: handler e] *)
Definition try_except {cl A} (m : M cl A) (handler : exn -> M cl A) : M cl A :=
  fun w =>
    match m w with
    | (Raised e, w1, tr1) =>
        let '(o, w2, tr2) := handler e w1 in (o, w2, tr1 ++ tr2)
    | r => r
    end.

Declare Scope m_scope.
Delimit Scope m_scope with m.
Notation "x <- m ;; k" := (bind m (fun x => k))
  (at level 100, m at next level, right associativity) : m_scope.
Notation "m ;;; k" := (bind m (fun _ => k))
  (at level 100, right associativity) : m_scope.
Open Scope m_scope.

Definition emit {cl} (ev : event) : M cl unit := fun w => (Returned tt, w, [ev]).

Definition time_sleep {cl} (seconds : Z) : M cl unit :=
  fun w => (Returned tt, sleep cl w seconds, [EvSleep seconds]).

Definition chat_completions_create {cl} (system user : str) : M cl ChatCompletion :=
  fun w =>
    let '(r, w1) := create cl w system user in
    (match r with
     | inl e => Raised e
     | inr chat => Returned chat
     end, w1, [EvCreate user r]).

(** Projections of a run. *)
Definition result {cl A} (r : outcome A * world cl * list event) : outcome A :=
  fst (fst r).
Definition final_world {cl A} (r : outcome A * world cl * list event) : world cl :=
  snd (fst r).
Definition trace {cl A} (r : outcome A * world cl * list event) : list event :=
  snd r.

(** Runs, prefixed by the events that came before. *)
Definition after {cl A} (pre : list event)
    (run : outcome A * world cl * list event) : outcome A * world cl * list event :=
  (result run, final_world run, pre ++ trace run).

(** The texts requested and the seconds slept, in order. *)
Fixpoint requests (tr : list event) : list str :=
  match tr with
  | [] => []
  | EvCreate user _ :: tr' => user :: requests tr'
  | _ :: tr' => requests tr'
  end.

Fixpoint sleeps (tr : list event) : list Z :=
  match tr with
  | [] => []
  | EvSleep seconds :: tr' => seconds :: sleeps tr'
  | _ :: tr' => sleeps tr'
  end.

(* ================================================================== *)
(** * The resilient query engine: [groq_query] (testdocsum.py) *)

Definition SYSTEM_PROMPT : str :=
  lit "Summarize the input text below. Limit the summary to 1 paragraph and use a 1st grade reading level.".

(** The default of the parameter [delay]. *)
Definition default_delay : Z := 5.

(** The loop over [chunked_text]: each chunk is queried and the text of its
    answer appended to [summarized_chunks]. *)
Fixpoint summarize_chunks {cl} (query : str -> M cl ChatCompletion)
    (chunked_text : list str) (summarized_chunks : list str) : M cl (list str) :=
  match chunked_text with
  | [] => ret summarized_chunks
  | chunk :: rest =>
      chunk_chat <- query chunk ;;
      let chunk_txt := content chunk_chat in
      summarize_chunks query rest (summarized_chunks ++ [chunk_txt])
  end.

(** [groq_query(input_text, client, delay)].  [fuel] bounds the depth of the
    recursion; the recursive calls leave [delay] to its default. *)
Fixpoint groq_query (cl : Client) (fuel : nat) (input_text : str) (delay : Z)
  : M cl ChatCompletion :=
  match fuel with
  | O => out_of_fuel
  | S fuel' =>
      try_except (chat_completions_create SYSTEM_PROMPT input_text)
        (fun e =>
           match e with
           | InternalServerError _ =>
               time_sleep delay ;;;
               groq_query cl fuel' input_text default_delay
           | RateLimitError error_message
           | BadRequestError error_message =>
               if contains (lit "RMP") error_message then
                 time_sleep delay ;;;
                 groq_query cl fuel' input_text default_delay
               else
                 emit (EvSplit input_text) ;;;
                 let chunked_text :=
                   split_document_into_chunks input_text default_max_chunk_size in
                 summarized_chunks <-
                   summarize_chunks
                     (fun chunk => groq_query cl fuel' chunk default_delay)
                     chunked_text [] ;;
                 let summarized_document := join (lit " ") summarized_chunks in
                 groq_query cl fuel' summarized_document default_delay
           | _ => raise e
           end)
  end.

(** The script: the text of the file is queried and the summary printed. *)
Definition main (cl : Client) (fuel : nat) (file_text : str) : M cl str :=
  summary_chat <- groq_query cl fuel file_text default_delay ;;
  ret (content summary_chat).

(** The two ways [groq_query] classifies a rate-limit or bad-request error:
    too many requests per minute, or too much text. *)
Definition frequency_limited (e : exn) : bool :=
  match e with
  | RateLimitError msg | BadRequestError msg => contains (lit "RMP") msg
  | _ => false
  end.

Definition oversize (e : exn) : bool :=
  match e with
  | RateLimitError msg | BadRequestError msg => negb (contains (lit "RMP") msg)
  | _ => false
  end.

(** The answers after which [groq_query] waits and asks again. *)
Definition retried (r : response) : bool :=
  match r with
  | inl (InternalServerError _) => true
  | inl e => frequency_limited e
  | inr _ => false
  end.

(** The exceptions that [groq_query] catches. *)
Definition handled (e : exn) : bool :=
  match e with
  | InternalServerError _ | RateLimitError _ | BadRequestError _ => true
  | _ => false
  end.

(** The run starts with a request that is followed at once by a split. *)
Definition splits_first (tr : list event) : bool :=
  match tr with
  | EvCreate _ _ :: EvSplit _ :: _ => true
  | _ => false
  end.

(** The chunks are queried one after the other at depth [fuel], each
    returning, and [sums] are the texts of their answers in that order. *)
Inductive in_order (cl : Client) (fuel : nat)
  : world cl -> list str -> list str -> world cl -> Prop :=
| in_order_nil w : in_order cl fuel w [] [] w
| in_order_cons w chunk chat w1 tr chunks sums w2 :
    groq_query cl fuel chunk default_delay w = (Returned chat, w1, tr) ->
    in_order cl fuel w1 chunks sums w2 ->
    in_order cl fuel w (chunk :: chunks) (content chat :: sums) w2.

(** [r] is the answer of the client to the last request of the run, and
    nothing happened after it. *)
Definition answered_last (cl : Client) (r : response) (w' : world cl)
    (tr : list event) : Prop :=
  exists user w0 tr0,
    create cl w0 SYSTEM_PROMPT user = (r, w') /\ tr = tr0 ++ [EvCreate user r].

(** How a run at depth [fuel] can fail: with an exception of the client
    that [groq_query] does not catch, raised by the last request; or by
    using up the depth, one request at least for each level. *)
Definition failure_ok (cl : Client) {A} (fuel : nat)
    (run : outcome A * world cl * list event) : Prop :=
  match result run with
  | Returned _ => True
  | Raised e =>
      handled e = false /\ answered_last cl (inl e) (final_world run) (trace run)
  | OutOfFuel => (fuel <= List.length (requests (trace run)))%nat
  end.

Definition run_ok (cl : Client) (fuel : nat)
    (run : outcome ChatCompletion * world cl * list event) : Prop :=
  failure_ok cl fuel run /\
  forall chat, result run = Returned chat ->
    answered_last cl (inr chat) (final_world run) (trace run).

(* ================================================================== *)
(** * The retry loop of [v9docsumvim.py] *)

Module V9.

Definition SUMMARY_PROMPT : str :=
  lit "Summarize the input text below and give me a summary of what it says on a 5th grade level".
Definition RETRY_LIMIT : Z := 3.
Definition RETRY_DELAY : Z := 5.

Definition FAILED : exn :=
  PyException (lit "Failed to get a response from the Groq API after multiple attempts.").

(** [while attempts < RETRY_LIMIT: ...]; [fuel] bounds the iterations. *)
Fixpoint while_attempts (cl : Client) (fuel : nat) (attempts : Z) (chunk : str)
  : M cl str :=
  if attempts <? RETRY_LIMIT then
    match fuel with
    | O => out_of_fuel
    | S fuel' =>
        try_except
          (chat_completion <- chat_completions_create SUMMARY_PROMPT chunk ;;
           ret (content chat_completion))
          (fun e =>
             match e with
             | InternalServerError _ | BadRequestError _ =>
                 let attempts := attempts + 1 in
                 emit (EvAttemptFailed attempts e) ;;;
                 time_sleep RETRY_DELAY ;;;
                 while_attempts cl fuel' attempts chunk
             | _ => raise e
             end)
    end
  else raise FAILED.

(** [summarize_chunk(chunk)]: the loop needs [RETRY_LIMIT] iterations at
    most. *)
Definition summarize_chunk (cl : Client) (chunk : str) : M cl str :=
  while_attempts cl (Z.to_nat RETRY_LIMIT) 0 chunk.

(** The exceptions that [summarize_chunk] catches. *)
Definition caught (e : exn) : bool :=
  match e with
  | InternalServerError _ | BadRequestError _ => true
  | _ => false
  end.

Definition CHUNK_SIZE : nat := 3500.
Definition FINAL_SUMMARY_CHUNK_SIZE : nat := 2000.

(** [range(0, stop, step)] for a positive [step]; Python raises
    [ValueError] when [step] is zero, and the script never calls it so. *)
Definition range_step (stop step : nat) : list nat :=
  map (fun k => k * step)%nat (seq 0 ((stop + step - 1) / step)).

(** [chunk_text(text, chunk_size)]:
    [[text[i:i + chunk_size] for i in range(0, len(text), chunk_size)]] *)
Definition chunk_text (text : str) (chunk_size : nat) : list str :=
  map (fun i => firstn chunk_size (skipn i text))
    (range_step (List.length text) chunk_size).

(** A loop [for chunk in chunks: acc.append(summarize_chunk(chunk))]. *)
Fixpoint summarize_each (cl : Client) (chunks : list str) (acc : list str)
  : M cl (list str) :=
  match chunks with
  | [] => ret acc
  | chunk :: rest =>
      summary <- summarize_chunk cl chunk ;;
      summarize_each cl rest (acc ++ [summary])
  end.

(** [summarize_final_chunks(summaries)] *)
Definition summarize_final_chunks (cl : Client) (summaries : list str)
  : M cl str :=
  let summary_text := join (lit " ") summaries in
  let chunks := chunk_text summary_text FINAL_SUMMARY_CHUNK_SIZE in
  final_summaries <- summarize_each cl chunks [] ;;
  ret (join (lit " ") final_summaries).

(** [process_file(filename)], from the text read from the file to the
    summary it prints last, [final_summary.strip()]; the progress lines it
    prints on the way are not recorded. *)
Definition process_file (cl : Client) (text : str) : M cl str :=
  let chunks := chunk_text text CHUNK_SIZE in
  chunk_summaries <- summarize_each cl chunks [] ;;
  final_summary <- summarize_final_chunks cl chunk_summaries ;;
  ret (strip final_summary).

End V9.

(* ================================================================== *)
(** * The script [old_code/v11docsumvim.py] *)

Module V11.

(** [range(0, stop, step)] for a positive [step]. *)
Definition range_step (stop step : nat) : list nat :=
  map (fun k => k * step)%nat (seq 0 ((stop + step - 1) / step)).

(** [[text[i:i + chunk_size] for i in range(0, len(text), chunk_size)]] *)
Definition split_document_into_chunks (text : str) (chunk_size : nat) : list str :=
  map (fun i => firstn chunk_size (skipn i text))
    (range_step (List.length text) chunk_size).

Definition default_chunk_size : nat := 5000.

Definition SYSTEM_PROMPT : str :=
  lit "summarize input text below. limit summary to 1 sentence and use a 1st grade reading level".

(** The loop over [chunks]: no exception is caught. *)
Fixpoint summarize_all {cl} (chunks : list str) (summaries : list str)
  : M cl (list str) :=
  match chunks with
  | [] => ret summaries
  | chunk :: rest =>
      chat_completion <- chat_completions_create SYSTEM_PROMPT chunk ;;
      summarize_all rest (summaries ++ [content chat_completion])
  end.

(** The script, from the text of the file to the line it prints. *)
Definition main (cl : Client) (filename text : str) : M cl str :=
  let chunks := split_document_into_chunks text default_chunk_size in
  summaries <- summarize_all chunks [] ;;
  let final_summary :=
    lit "This is a summary of the file '" ++ filename ++ lit "': "
      ++ join (lit " ") summaries in
  ret final_summary.

End V11.

(* ================================================================== *)
(** * Summarizers used in the examples *)

(** Every request is answered with [answer]. *)
Definition answers_with (answer : str) : Client :=
  {| world := unit;
     create := fun w _ _ => (inr {| content := answer |}, w);
     sleep := fun w _ => w |}.

(** Every request fails with an internal server error. *)
Definition always_unstable : Client :=
  {| world := unit;
     create := fun w _ _ => (inl (InternalServerError (lit "unstable")), w);
     sleep := fun w _ => w |}.

(** A request of more than [limit] characters is rejected as too large;
    any other is answered with [answer]. *)
Definition rejects_over (limit : Z) (answer : str) : Client :=
  {| world := unit;
     create := fun w _ user =>
       (if len user >? limit
        then inl (BadRequestError (lit "Request too large"))
        else inr {| content := answer |}, w);
     sleep := fun w _ => w |}.

(** The first request is refused for frequency; the state counts the
    requests, and the later ones are answered with [answer]. *)
Definition busy_once (answer : str) : Client :=
  {| world := nat;
     create := fun w _ _ =>
       (match w with
        | O => inl (RateLimitError (lit "Rate limit reached: Requests Per Minute (RMP)"))
        | S _ => inr {| content := answer |}
        end, S w);
     sleep := fun w _ => w |}.

(** A paragraph of [n] letters. *)
Definition letters (n : nat) : str := repeat 97%N n.

(** One paragraph of 10000 letters. *)
Definition long_paragraph : str := letters (100 * 100).

(* ================================================================== *)
(** * The script [v2testdocsum.py] *)

Module V2.

(** [sum(len(p) for p in current_chunk)] *)
Definition sum_len (current_chunk : list str) : Z :=
  fold_right Z.add 0 (map len current_chunk).

(** One iteration of the loop of [chunk_text_by_size] on the state
    [(chunks, current_chunk)], the buffer being a list of paragraphs. *)
Definition pack (max_chunk_size : Z) (st : list str * list str) (para : str)
  : list str * list str :=
  let '(chunks, current_chunk) := st in
  if sum_len current_chunk + len para + Z.of_nat (List.length current_chunk) * 2
     >? max_chunk_size
  then (chunks ++ [strip (join SEP current_chunk)], [para])
  else (chunks, current_chunk ++ [para]).

Definition flush (st : list str * list str) : list str :=
  let '(chunks, current_chunk) := st in
  match current_chunk with
  | [] => chunks
  | _ :: _ => chunks ++ [strip (join SEP current_chunk)]
  end.

(** [chunk_text_by_size(text, max_chunk_size)] *)
Definition chunk_text_by_size (text : str) (max_chunk_size : Z) : list str :=
  if negb (truthy text) then []
  else flush (fold_left (pack max_chunk_size) (cleaned_paragraphs text) ([], [])).

Definition SYSTEM_PROMPT : str :=
  lit "Summarize the input text below in one paragraph at a 5th-grade reading level.".

(** [perform_groq_query(text_chunk, api_client, retry_delay)].  [fuel]
    bounds the depth of the recursion; the recursive calls leave
    [retry_delay] to its default. *)
Fixpoint perform_groq_query (cl : Client) (fuel : nat) (text_chunk : str)
    (retry_delay : Z) : M cl ChatCompletion :=
  match fuel with
  | O => out_of_fuel
  | S fuel' =>
      try_except (chat_completions_create SYSTEM_PROMPT text_chunk)
        (fun e =>
           match e with
           | InternalServerError _ =>
               time_sleep retry_delay ;;;
               perform_groq_query cl fuel' text_chunk default_delay
           | RateLimitError msg
           | BadRequestError msg =>
               if contains (lit "RMP") msg then
                 time_sleep retry_delay ;;;
                 perform_groq_query cl fuel' text_chunk default_delay
               else
                 let chunked_text :=
                   chunk_text_by_size text_chunk default_max_chunk_size in
                 summarized_chunks <-
                   summarize_chunks
                     (fun chunk => perform_groq_query cl fuel' chunk default_delay)
                     chunked_text [] ;;
                 let combined_summary := join (lit " ") summarized_chunks in
                 perform_groq_query cl fuel' combined_summary default_delay
           | _ => raise e
           end)
  end.

End V2.

(* ================================================================== *)
(** * Predicates used to state further properties *)

(** Every character is white space. *)
Definition allspace (s : str) : Prop := Forall (fun c => isspace c = true) s.

(** No group could take the first paragraph of the next one: the packing
    is greedy. *)
Fixpoint tight (s : Z) (groups : list (list str)) : Prop :=
  match groups with
  | [] => True
  | g1 :: rest =>
      match rest with
      | (p :: _) :: _ => s < len (join SEP g1) + len p + 2
      | _ => True
      end /\ tight s rest
  end.

(** Every request is refused for the volume of text. *)
Definition always_oversize (cl : Client) (system : str) : Prop :=
  forall w user, exists e w1,
    create cl w system user = (inl e, w1) /\ oversize e = true.

(** A service out of tokens: every request is refused with a rate-limit
    error on the tokens per minute. *)
Definition out_of_tokens : Client :=
  {| world := unit;
     create := fun w _ _ =>
       (inl (RateLimitError (lit "Rate limit reached: Tokens Per Minute (TPM)")), w);
     sleep := fun w _ => w |}.

(** Groups of cleaned paragraphs, none of them empty. *)
Definition groups_ok (groups : list (list str)) : Prop :=
  Forall (fun g => g <> [] /\ Forall para_ok g) groups.

(** The slices of [chunk_size] characters of a text, as [chunk_text] of
    [v9docsumvim.py] and [split_document_into_chunks] of
    [old_code/v11docsumvim.py] both compute them. *)
Definition slices (text : str) (chunk_size : nat) : list str :=
  map (fun i => firstn chunk_size (skipn i text))
    (map (fun k => k * chunk_size)%nat
       (seq 0 ((List.length text + chunk_size - 1) / chunk_size))).

(** The sizes of slices: none is empty, none is over [n], and all but the
    last have [n] characters. *)
Fixpoint slice_sizes (n : nat) (chunks : list str) : Prop :=
  match chunks with
  | [] => True
  | [c] => (1 <= List.length c <= n)%nat
  | c :: rest => List.length c = n /\ slice_sizes n rest
  end.
(* ------------------------------------------------------------------ *)
(** ** The doctests of [split_document_into_chunks] *)

Definition para1 : str := lit "This is a paragraph.".
Definition para2 : str := lit "This is another paragraph.".
Definition para3 : str := lit "This is yet another paragraph.".
Definition para4 : str := lit "This is too long to fit in one chunk.".

Example doctest_one_paragraph :
  split_document_into_chunks para1 default_max_chunk_size = [para1].
Proof. vm_compute. reflexivity. Qed.

Example doctest_two_paragraphs :
  split_document_into_chunks (para1 ++ SEP ++ para2) default_max_chunk_size
  = [para1 ++ SEP ++ para2].
Proof. vm_compute. reflexivity. Qed.

Example doctest_three_paragraphs :
  split_document_into_chunks (para1 ++ SEP ++ para2 ++ SEP ++ para3)
    default_max_chunk_size
  = [para1 ++ SEP ++ para2 ++ SEP ++ para3].
Proof. vm_compute. reflexivity. Qed.

Example doctest_long_document :
  let doc :=
    split_document_into_chunks
      (concat (repeat (para1 ++ SEP ++ para2 ++ SEP ++ para3 ++ SEP ++ para4)
                 1000))
      500 in
  (len (hd [] doc) = 496 /\ List.length doc = 250%nat).
Proof. vm_compute. split; reflexivity. Qed.

Example doctest_empty :
  split_document_into_chunks [] default_max_chunk_size = [].
Proof. reflexivity. Qed.

Example doctest_trailing_separator :
  split_document_into_chunks (para1 ++ SEP) 10 = [para1].
Proof. vm_compute. reflexivity. Qed.

Example doctest_short_text :
  split_document_into_chunks (lit "Short text") 10 = [lit "Short text"].
Proof. vm_compute. reflexivity. Qed.

(* ================================================================== *)
(** * Facts about strings *)

Lemma len_app (a b : str) : len (a ++ b) = len a + len b.
Proof. unfold len. rewrite length_app. lia. Qed.

Lemma len_nonneg (a : str) : 0 <= len a.
Proof. unfold len. lia. Qed.

Lemma len_SEP : len SEP = 2.
Proof. reflexivity. Qed.

Lemma truthy_true (s : str) : truthy s = true <-> s <> [].
Proof. destruct s; simpl; split; congruence. Qed.

Lemma is_nl_isspace (c : char) : is_nl c = true -> isspace c = true.
Proof.
  unfold is_nl. intros H. apply N.eqb_eq in H. subst c. reflexivity.
Qed.


Lemma rstrip_idem (s : str) : rstrip (rstrip s) = rstrip s.
Proof.
  induction s as [|c s IH]; simpl; [reflexivity|].
  destruct (rstrip s) as [|d r] eqn:E.
  - destruct (isspace c) eqn:Ec; simpl; [reflexivity|]. now rewrite Ec.
  - simpl in *. now rewrite IH.
Qed.

Lemma lstrip_fixed_head (c : char) (s : str) :
  lstrip (c :: s) = c :: s -> isspace c = false.
Proof.
  simpl. destruct (isspace c) eqn:E; [|reflexivity].
  intros H. exfalso.
  assert (L : forall t, (List.length (lstrip t) <= List.length t)%nat).
  { induction t as [|d t IHt]; simpl; [lia|].
    destruct (isspace d); simpl; lia. }
  specialize (L s). rewrite H in L. simpl in L. lia.
Qed.

Lemma lstrip_head_fixed (c : char) (s : str) :
  isspace c = false -> lstrip (c :: s) = c :: s.
Proof. simpl. now intros ->. Qed.

Lemma rstrip_head (c : char) (s : str) :
  isspace c = false -> exists r, rstrip (c :: s) = c :: r.
Proof.
  intros Hc. simpl. destruct (rstrip s) as [|d r].
  - rewrite Hc. now exists [].
  - now exists (d :: r).
Qed.

Lemma strip_cases (s : str) : strip s = [] \/ stripped (strip s).
Proof.
  unfold strip.
  assert (Hl : lstrip s = [] \/ exists c t, lstrip s = c :: t /\ isspace c = false).
  { induction s as [|c s IH]; simpl; [now left|].
    destruct (isspace c) eqn:E; [exact IH|]. right. now exists c, s. }
  destruct Hl as [-> | (c & t & -> & Hc)]; [now left|].
  right. destruct (rstrip_head c t Hc) as [r Hr].
  repeat split.
  - rewrite Hr. discriminate.
  - rewrite Hr. now apply lstrip_head_fixed.
  - apply rstrip_idem.
Qed.

Lemma stripped_strip (s : str) : stripped s -> strip s = s.
Proof. intros (_ & Hl & Hr). unfold strip. now rewrite Hl. Qed.

Lemma stripped_truthy (s : str) : stripped s -> truthy s = true.
Proof. intros (Hn & _). now apply truthy_true. Qed.

Lemma stripped_head (s : str) :
  stripped s -> exists c t, s = c :: t /\ isspace c = false.
Proof.
  intros (Hn & Hl & _). destruct s as [|c t]; [congruence|].
  exists c, t. split; [reflexivity|]. now apply lstrip_fixed_head with t.
Qed.

Lemma rstrip_app_fixed (a b : str) :
  b <> [] -> rstrip b = b -> rstrip (a ++ b) = a ++ b.
Proof.
  intros Hn Hb. induction a as [|c a IH]; simpl; [exact Hb|].
  rewrite IH. destruct (a ++ b) eqn:E; [|reflexivity].
  apply app_eq_nil in E. destruct E; congruence.
Qed.

Lemma stripped_app (a m b : str) :
  stripped a -> stripped b -> stripped (a ++ m ++ b).
Proof.
  intros Ha Hb. destruct (stripped_head a Ha) as (c & t & -> & Hc).
  destruct Hb as (Hbn & _ & Hbr).
  repeat split.
  - discriminate.
  - simpl. now rewrite Hc.
  - rewrite app_assoc. now apply rstrip_app_fixed.
Qed.

(** ** [join] *)

Lemma join_cons (sep p : str) (rest : list str) :
  rest <> [] -> join sep (p :: rest) = p ++ sep ++ join sep rest.
Proof. destruct rest; [congruence | reflexivity]. Qed.

Lemma join_app (sep : str) (l1 l2 : list str) :
  l1 <> [] -> l2 <> [] ->
  join sep (l1 ++ l2) = join sep l1 ++ sep ++ join sep l2.
Proof.
  intros H1 H2. induction l1 as [|p l1 IH]; [congruence|].
  destruct l1 as [|q l1].
  - simpl app. now rewrite join_cons.
  - change ((p :: q :: l1) ++ l2) with (p :: ((q :: l1) ++ l2)).
    rewrite join_cons by discriminate.
    rewrite IH by discriminate.
    rewrite (join_cons sep p (q :: l1)) by discriminate.
    now rewrite <- !app_assoc.
Qed.

Lemma join_merge_head (sep p q : str) (r : list str) :
  join sep ((p ++ sep ++ q) :: r) = join sep (p :: q :: r).
Proof.
  destruct r as [|x r]; [reflexivity|].
  rewrite !join_cons by discriminate. now rewrite <- !app_assoc.
Qed.

Lemma join_concat (sep : str) (groups : list (list str)) :
  Forall (fun g => g <> []) groups ->
  join sep (map (join sep) groups) = join sep (concat groups).
Proof.
  induction 1 as [|g gs Hg Hgs IH]; [reflexivity|].
  destruct gs as [|g2 gs].
  - simpl. now rewrite app_nil_r.
  - change (map (join sep) (g :: g2 :: gs))
      with (join sep g :: map (join sep) (g2 :: gs)).
    rewrite join_cons by discriminate. rewrite IH.
    change (concat (g :: g2 :: gs)) with (g ++ concat (g2 :: gs)).
    rewrite join_app; [reflexivity | assumption |].
    inversion Hgs as [|? ? Hg2 _]; subst.
    simpl. destruct g2; [congruence | discriminate].
Qed.

Lemma stripped_join (p : str) (g : list str) :
  Forall stripped (p :: g) -> stripped (join SEP (p :: g)).
Proof.
  revert p. induction g as [|q g IH]; intros p H.
  - now inversion H.
  - inversion H as [|? ? Hp Hg]; subst.
    rewrite join_cons by discriminate.
    apply stripped_app; [assumption | now apply IH].
Qed.

(* ------------------------------------------------------------------ *)
(** ** Paragraphs: what [re.split] leaves between two matches *)


Lemma re_split_go_first (b : bool) (text : str) :
  exists p ps, re_split_go b text = p :: ps.
Proof.
  revert b. induction text as [|c rest IH]; intros b; simpl.
  - now exists [], [].
  - destruct b.
    + destruct (is_nl c); [apply IH|].
      destruct (IH false) as (p & ps & ->). now exists (c :: p), ps.
    + destruct (is_nl c && starts_nl rest).
      * now exists [], (re_split_go true rest).
      * destruct (IH false) as (p & ps & ->). now exists (c :: p), ps.
Qed.

(** The first piece starts like the text does, when the text does not
    start with a newline. *)
Lemma re_split_go_first_nl (text : str) :
  starts_nl text = false ->
  exists p ps, re_split_go false text = p :: ps /\ starts_nl p = false.
Proof.
  destruct text as [|c rest]; simpl; intros H.
  - now exists [], [].
  - rewrite H. simpl.
    destruct (re_split_go_first false rest) as (p & ps & ->).
    now exists (c :: p), ps.
Qed.

Lemma re_split_go_noblank (text : str) :
  forall b, Forall (fun p => noblank p = true) (re_split_go b text).
Proof.
  induction text as [|c rest IH]; intros b; simpl.
  - now constructor.
  - assert (Hpush : is_nl c && starts_nl rest = false ->
                    Forall (fun p => noblank p = true)
                      (push_front c (re_split_go false rest))).
    { intros Hc. specialize (IH false).
      destruct (is_nl c) eqn:Ec.
      - simpl in Hc.
        destruct (re_split_go_first_nl rest Hc) as (p & ps & E & Hp).
        rewrite E in *. cbn [push_front]. inversion IH; subst.
        constructor; [|assumption]. cbn [noblank]. now rewrite Ec, Hp.
      - destruct (re_split_go_first false rest) as (p & ps & E).
        rewrite E in *. cbn [push_front]. inversion IH; subst.
        constructor; [|assumption]. cbn [noblank]. now rewrite Ec. }
    destruct b.
    + destruct (is_nl c) eqn:Ec; [apply IH|]. now apply Hpush.
    + destruct (is_nl c && starts_nl rest) eqn:E.
      * constructor; [reflexivity | apply IH].
      * now apply Hpush.
Qed.

Lemma noblank_tail (c : char) (s : str) :
  noblank (c :: s) = true -> noblank s = true.
Proof. simpl. intros H. now apply andb_true_iff in H. Qed.

Lemma noblank_lstrip (s : str) : noblank s = true -> noblank (lstrip s) = true.
Proof.
  induction s as [|c s IH]; [reflexivity|]. intros H. simpl lstrip.
  destruct (isspace c); [|exact H]. apply IH. now apply noblank_tail with c.
Qed.

Lemma starts_nl_rstrip (s : str) :
  starts_nl (rstrip s) = true -> starts_nl s = true.
Proof.
  destruct s as [|c s]; [easy|]. simpl.
  destruct (rstrip s); [destruct (isspace c)|]; simpl; easy.
Qed.

Lemma noblank_rstrip (s : str) : noblank s = true -> noblank (rstrip s) = true.
Proof.
  induction s as [|c s IH]; [reflexivity|]. intros H.
  pose proof (noblank_tail c s H) as Hs. specialize (IH Hs).
  simpl in H. apply andb_true_iff in H. destruct H as [Hc _].
  simpl rstrip. destruct (rstrip s) as [|d r] eqn:E.
  - destruct (isspace c); [reflexivity|].
    cbn [noblank starts_nl]. now rewrite andb_false_r.
  - change (noblank (c :: d :: r))
      with (negb (is_nl c && starts_nl (d :: r)) && noblank (d :: r)).
    rewrite IH, andb_true_r.
    destruct (is_nl c) eqn:Ec; [|reflexivity]. rewrite andb_true_l in *.
    destruct (starts_nl (d :: r)) eqn:Ed; [|reflexivity].
    rewrite <- E in Ed. apply starts_nl_rstrip in Ed. now rewrite Ed in Hc.
Qed.


Lemma cleaned_paragraphs_ok (text : str) :
  Forall para_ok (cleaned_paragraphs text).
Proof.
  unfold cleaned_paragraphs, re_split.
  pose proof (re_split_go_noblank text false) as H.
  induction H as [|p ps Hp _ IH]; simpl; [constructor|].
  destruct (truthy (strip p)) eqn:E; [|exact IH].
  simpl. constructor; [|exact IH]. split.
  - destruct (strip_cases p) as [E0 | Hs]; [now rewrite E0 in E | exact Hs].
  - unfold strip. now apply noblank_rstrip, noblank_lstrip.
Qed.

Lemma para_ok_stripped (g : list str) : Forall para_ok g -> Forall stripped g.
Proof. apply Forall_impl. now intros p [H _]. Qed.

(** ** [re.split] gives back the paragraphs of a joined chunk *)

Lemma re_split_go_plain (p : str) :
  noblank p = true -> re_split_go false p = [p].
Proof.
  induction p as [|c p IH]; [reflexivity|]. intros H.
  pose proof (noblank_tail c p H) as Hp.
  simpl in H. apply andb_true_iff in H. destruct H as [Hc _].
  apply negb_true_iff in Hc. simpl. rewrite Hc, (IH Hp). reflexivity.
Qed.

Lemma rstrip_fixed_tail (c : char) (p : str) :
  rstrip (c :: p) = c :: p ->
  rstrip p = p /\ (p = [] -> isspace c = false).
Proof.
  simpl. destruct (rstrip p) as [|d r] eqn:E.
  - destruct (isspace c); [discriminate|]. intros H. inversion H. now split.
  - intros H. inversion H. now split.
Qed.

Lemma re_split_go_sep (p q : str) :
  noblank p = true -> rstrip p = p ->
  q <> [] -> starts_nl q = false ->
  re_split_go false (p ++ SEP ++ q) = p :: re_split_go false q.
Proof.
  intros Hp Hr Hq Hs. induction p as [|c p IH].
  - destruct q as [|d q]; [congruence|]. simpl in Hs.
    simpl. now rewrite Hs.
  - pose proof (noblank_tail c p Hp) as Hp'.
    destruct (rstrip_fixed_tail c p Hr) as [Hr' Hlast].
    simpl in Hp. apply andb_true_iff in Hp. destruct Hp as [Hc _].
    apply negb_true_iff in Hc.
    change ((c :: p) ++ SEP ++ q) with (c :: (p ++ SEP ++ q)).
    cbn [re_split_go].
    assert (E : is_nl c && starts_nl (p ++ SEP ++ q) = false).
    { destruct p as [|d p]; [|exact Hc].
      destruct (is_nl c) eqn:Ec; [|reflexivity].
      apply is_nl_isspace in Ec. rewrite Hlast in Ec; congruence. }
    rewrite E, (IH Hp' Hr'). reflexivity.
Qed.

Lemma join_head (p : str) (g : list str) :
  stripped p ->
  join SEP (p :: g) <> [] /\ starts_nl (join SEP (p :: g)) = false.
Proof.
  intros Hp. destruct (stripped_head p Hp) as (c & t & -> & Hc).
  assert (Hn : is_nl c = false).
  { destruct (is_nl c) eqn:E; [|reflexivity].
    apply is_nl_isspace in E. congruence. }
  destruct g; simpl; (split; [discriminate | exact Hn]).
Qed.

Lemma re_split_join (g : list str) :
  Forall para_ok g -> g <> [] -> re_split (join SEP g) = g.
Proof.
  unfold re_split. induction 1 as [|p g [Hs Hb] Hg IH]; [congruence|].
  intros _. destruct g as [|q g].
  - now apply re_split_go_plain.
  - rewrite join_cons by discriminate.
    inversion Hg as [|? ? [Hq _] _]; subst.
    destruct (join_head q g Hq) as [Hne Hst].
    rewrite re_split_go_sep; try assumption.
    + now rewrite IH.
    + apply Hs.
Qed.

Lemma cleaned_paragraphs_join (g : list str) :
  Forall para_ok g -> g <> [] -> cleaned_paragraphs (join SEP g) = g.
Proof.
  intros Hg Hn. unfold cleaned_paragraphs. rewrite re_split_join by assumption.
  clear Hn. induction Hg as [|p g [Hs _] _ IH]; [reflexivity|].
  simpl. rewrite (stripped_strip p Hs), (stripped_truthy p Hs).
  simpl. now rewrite (stripped_strip p Hs), IH.
Qed.

(* ================================================================== *)
(** * The packing loop *)



Lemma good_group_nonempty (s : Z) (g : list str) :
  good_group s g = true -> g <> [].
Proof. destruct g; simpl; congruence. Qed.

Lemma join_snoc (sep : str) (l : list str) (q : str) :
  l <> [] -> join sep (l ++ [q]) = join sep l ++ sep ++ q.
Proof. intros H. now rewrite join_app. Qed.

Lemma packs_snoc (s : Z) (g : list str) :
  forall p q,
  packs s p (g ++ [q])
  = packs s p g && (len (join SEP (p :: g)) + len q + 2 <=? s).
Proof.
  induction g as [|x g IH]; intros p q.
  - simpl. now rewrite andb_true_r.
  - change (packs s p ((x :: g) ++ [q]))
      with ((len p + len x + 2 <=? s) && packs s (p ++ SEP ++ x) (g ++ [q])).
    rewrite IH, join_merge_head. cbn [packs]. now rewrite andb_assoc.
Qed.

Lemma pack_overflow (s : Z) (chunks : list str) (cur para : str) :
  len cur + len para + 2 > s -> stripped cur ->
  pack s (chunks, cur) para = (chunks ++ [cur], para).
Proof.
  intros H Hc. unfold pack.
  destruct (Z.gtb_spec (len cur + len para + 2) s); [|lia].
  now rewrite (stripped_truthy cur Hc), (stripped_strip cur Hc).
Qed.

Lemma pack_append (s : Z) (chunks : list str) (cur para : str) :
  len cur + len para + 2 <= s -> stripped cur ->
  pack s (chunks, cur) para = (chunks, cur ++ SEP ++ para).
Proof.
  intros H Hc. unfold pack.
  destruct (Z.gtb_spec (len cur + len para + 2) s); [lia|].
  now rewrite (stripped_truthy cur Hc), <- app_assoc.
Qed.

Lemma pack_first (s : Z) (para : str) : pack s ([], []) para = ([], para).
Proof. unfold pack. now destruct (_ >? _). Qed.

(** The invariant of the loop: the buffer holds a group being packed; what
    the loop and the final [flush] add to [chunks] is a list of groups, each
    joined, that splits the paragraphs in order. *)
Lemma pack_loop_groups (s : Z) (ps : list str) :
  forall chunks p g,
  Forall stripped (p :: g ++ ps) ->
  packs s p g = true ->
  exists groups,
    flush (fold_left (pack s) ps (chunks, join SEP (p :: g)))
    = chunks ++ map (join SEP) groups
    /\ concat groups = (p :: g) ++ ps
    /\ Forall (fun g => good_group s g = true) groups.
Proof.
  induction ps as [|q ps IH]; intros chunks p g Hall Hpk.
  - rewrite app_nil_r in Hall.
    pose proof (stripped_join p g Hall) as Hj.
    exists [p :: g]. cbn [fold_left flush].
    rewrite (stripped_truthy _ Hj), (stripped_strip _ Hj).
    split; [reflexivity | split].
    + cbn [concat]. now rewrite !app_nil_r.
    + constructor; [exact Hpk | constructor].
  - assert (Hpg : Forall stripped (p :: g)).
    { change (p :: g ++ q :: ps) with ((p :: g) ++ q :: ps) in Hall.
      now apply Forall_app in Hall. }
    pose proof (stripped_join p g Hpg) as Hj.
    cbn [fold_left].
    destruct (Z_gt_le_dec (len (join SEP (p :: g)) + len q + 2) s) as [Hgt|Hle].
    + rewrite pack_overflow by assumption.
      destruct (IH (chunks ++ [join SEP (p :: g)]) q []) as (groups & E & Hc & Hg).
      * change (p :: g ++ q :: ps) with ((p :: g) ++ q :: ps) in Hall.
        now apply Forall_app in Hall.
      * reflexivity.
      * exists ((p :: g) :: groups). split; [|split].
        -- change (join SEP [q]) with q in E. rewrite E.
           cbn [map]. now rewrite <- app_assoc.
        -- cbn [concat]. now rewrite Hc.
        -- now constructor.
    + rewrite pack_append by assumption.
      rewrite <- join_snoc by discriminate.
      destruct (IH chunks p (g ++ [q])) as (groups & E & Hc & Hg).
      * now rewrite <- app_assoc.
      * rewrite packs_snoc, Hpk. now apply Z.leb_le.
      * exists groups. split; [exact E | split; [|exact Hg]].
        rewrite Hc. cbn [app]. now rewrite <- app_assoc.
Qed.

(** The structure of the result: the chunks are the joined groups of a
    partition of the cleaned paragraphs into consecutive groups. *)
Lemma chunks_groups (text : str) (s : Z) :
  exists groups,
    split_document_into_chunks text s = map (join SEP) groups
    /\ concat groups = cleaned_paragraphs text
    /\ Forall (fun g => good_group s g = true) groups.
Proof.
  unfold split_document_into_chunks.
  destruct text as [|c text]; [now exists []|].
  cbn [truthy negb].
  pose proof (para_ok_stripped _ (cleaned_paragraphs_ok (c :: text))) as Hok.
  destruct (cleaned_paragraphs (c :: text)) as [|q ps]; [now exists []|].
  cbn [fold_left]. rewrite pack_first.
  destruct (pack_loop_groups s ps [] q [] Hok eq_refl) as (groups & E & Hc & Hg).
  exists groups. split; [exact E | split; [exact Hc | exact Hg]].
Qed.

(** ** Sizes inside a group *)

Lemma packs_bound (s : Z) (rest : list str) :
  forall cur, packs s cur rest = true -> rest <> [] ->
  len (join SEP (cur :: rest)) <= s.
Proof.
  induction rest as [|q rest IH]; intros cur H Hn; [congruence|].
  cbn [packs] in H. apply andb_true_iff in H. destruct H as [Hle H].
  apply Z.leb_le in Hle. destruct rest as [|q2 rest].
  - cbn [join]. rewrite !len_app, len_SEP. lia.
  - rewrite <- join_merge_head. now apply IH.
Qed.

Lemma packs_small (s : Z) (rest : list str) :
  forall cur, packs s cur rest = true -> rest <> [] ->
  len cur + 2 <= s /\ forall x, In x rest -> len x + 2 <= s.
Proof.
  induction rest as [|q rest IH]; intros cur H Hn; [congruence|].
  cbn [packs] in H. apply andb_true_iff in H. destruct H as [Hle H].
  apply Z.leb_le in Hle.
  pose proof (len_nonneg cur). pose proof (len_nonneg q).
  split; [lia|]. intros x [<- | Hx]; [lia|].
  destruct rest as [|q2 rest]; [contradiction|].
  destruct (IH _ H) as [_ Hr]; [discriminate|]. now apply Hr.
Qed.

Lemma good_group_cases (s : Z) (g : list str) :
  good_group s g = true ->
  (exists p, g = [p]) \/ (len (join SEP g) <= s /\ forall x, In x g -> len x <= s).
Proof.
  destruct g as [|p rest]; [discriminate|]. cbn [good_group]. intros H.
  destruct rest as [|q rest]; [left; now exists p|]. right.
  split; [now apply packs_bound|].
  destruct (packs_small s (q :: rest) p H) as [Hp Hr]; [discriminate|].
  intros x [<- | Hx]; [lia|]. specialize (Hr x Hx). lia.
Qed.

(** ** Running the loop again on one group *)

Lemma pack_group_again (s : Z) (rest : list str) :
  forall cur, stripped cur -> Forall stripped rest ->
  packs s cur rest = true ->
  fold_left (pack s) rest ([], cur) = ([], join SEP (cur :: rest)).
Proof.
  induction rest as [|q rest IH]; intros cur Hc Hr H; [reflexivity|].
  cbn [packs] in H. apply andb_true_iff in H. destruct H as [Hle H].
  apply Z.leb_le in Hle. inversion Hr as [|? ? Hq Hr']; subst.
  cbn [fold_left]. rewrite pack_append by assumption.
  rewrite IH; try assumption.
  - now rewrite join_merge_head.
  - now apply stripped_app.
Qed.

Lemma chunk_of_group_fixed (s : Z) (g : list str) :
  Forall para_ok g -> good_group s g = true ->
  split_document_into_chunks (join SEP g) s = [join SEP g].
Proof.
  intros Hok Hg. pose proof (good_group_nonempty s g Hg) as Hn.
  pose proof (para_ok_stripped g Hok) as Hs.
  destruct g as [|p rest]; [congruence|].
  pose proof (stripped_join p rest Hs) as Hj.
  unfold split_document_into_chunks.
  rewrite (stripped_truthy _ Hj). cbn [negb].
  rewrite cleaned_paragraphs_join by assumption.
  cbn [fold_left]. rewrite pack_first.
  inversion Hs as [|? ? Hp Hrest]; subst.
  rewrite pack_group_again by assumption.
  cbn [flush]. now rewrite (stripped_truthy _ Hj), (stripped_strip _ Hj).
Qed.

Lemma Forall_concat_inv {A} (P : A -> Prop) (ll : list (list A)) :
  Forall P (concat ll) -> Forall (Forall P) ll.
Proof.
  induction ll as [|l ll IH]; simpl; intros H; [constructor|].
  apply Forall_app in H. destruct H. constructor; auto.
Qed.

(* ================================================================== *)
(** * Facts about the query engine *)

Lemma requests_app (a b : list event) : requests (a ++ b) = requests a ++ requests b.
Proof.
  induction a as [|ev a IH]; [reflexivity|].
  destruct ev; simpl; now rewrite IH.
Qed.

Lemma sleeps_app (a b : list event) : sleeps (a ++ b) = sleeps a ++ sleeps b.
Proof.
  induction a as [|ev a IH]; [reflexivity|].
  destruct ev; simpl; now rewrite IH.
Qed.

Lemma bind_run {cl A B} (m : M cl A) (k : A -> M cl B) (w : world cl) a w1 tr1 :
  m w = (Returned a, w1, tr1) -> bind m k w = after tr1 (k a w1).
Proof.
  intros H. unfold bind, after, result, final_world, trace. rewrite H.
  now destruct (k a w1) as [[o w2] tr2].
Qed.

Lemma bind_raised {cl A B} (m : M cl A) (k : A -> M cl B) (w : world cl) e w1 tr1 :
  m w = (Raised e, w1, tr1) -> bind m k w = (Raised e, w1, tr1).
Proof. intros H. unfold bind. now rewrite H. Qed.

Lemma bind_out_of_fuel {cl A B} (m : M cl A) (k : A -> M cl B) (w : world cl) w1 tr1 :
  m w = (OutOfFuel, w1, tr1) -> bind m k w = (OutOfFuel, w1, tr1).
Proof. intros H. unfold bind. now rewrite H. Qed.

Lemma after_after {cl A} (p q : list event) (run : outcome A * world cl * list event) :
  after p (after q run) = after (p ++ q) run.
Proof. unfold after. simpl. now rewrite app_assoc. Qed.

(** ** One step of [groq_query], by the answer to its request *)

Section Step.
Variable cl : Client.
Variables (fuel : nat) (input_text : str) (delay : Z) (w w1 : world cl).

Lemma groq_query_success chat :
  create cl w SYSTEM_PROMPT input_text = (inr chat, w1) ->
  groq_query cl (S fuel) input_text delay w
  = (Returned chat, w1, [EvCreate input_text (inr chat)]).
Proof.
  intros H. cbn [groq_query]. unfold try_except, chat_completions_create.
  now rewrite H.
Qed.

Lemma groq_query_propagate e :
  create cl w SYSTEM_PROMPT input_text = (inl e, w1) ->
  handled e = false ->
  groq_query cl (S fuel) input_text delay w
  = (Raised e, w1, [EvCreate input_text (inl e)]).
Proof.
  intros H He. cbn [groq_query]. unfold try_except, chat_completions_create.
  rewrite H. destruct e; try discriminate; unfold raise; now rewrite app_nil_r.
Qed.

Lemma groq_query_retry e :
  create cl w SYSTEM_PROMPT input_text = (inl e, w1) ->
  (exists msg, e = InternalServerError msg) \/ frequency_limited e = true ->
  groq_query cl (S fuel) input_text delay w
  = after [EvCreate input_text (inl e); EvSleep delay]
      (groq_query cl fuel input_text default_delay (sleep cl w1 delay)).
Proof.
  intros H He. cbn [groq_query]. unfold try_except, chat_completions_create.
  rewrite H.
  assert (E : forall k : M cl ChatCompletion,
             (let '(o, w2, tr2) := bind (time_sleep delay) (fun _ => k) w1 in
              (o, w2, [EvCreate input_text (inl e)] ++ tr2))
             = after [EvCreate input_text (inl e); EvSleep delay]
                 (k (sleep cl w1 delay))).
  { intros k. unfold bind, time_sleep, after, result, final_world, trace.
    now destruct (k (sleep cl w1 delay)) as [[o w2] tr2]. }
  destruct He as [[msg ->] | He].
  - apply E.
  - destruct e; try discriminate; cbn [frequency_limited] in He; rewrite He; apply E.
Qed.

Lemma groq_query_subdivide e :
  create cl w SYSTEM_PROMPT input_text = (inl e, w1) ->
  oversize e = true ->
  groq_query cl (S fuel) input_text delay w
  = after [EvCreate input_text (inl e); EvSplit input_text]
      ((summarized_chunks <-
          summarize_chunks (fun chunk => groq_query cl fuel chunk default_delay)
            (split_document_into_chunks input_text default_max_chunk_size) [] ;;
        groq_query cl fuel (join (lit " ") summarized_chunks) default_delay) w1).
Proof.
  intros H He. cbn [groq_query]. unfold try_except, chat_completions_create.
  rewrite H.
  assert (E : forall k : M cl ChatCompletion,
             (let '(o, w2, tr2) := bind (emit (EvSplit input_text)) (fun _ => k) w1 in
              (o, w2, [EvCreate input_text (inl e)] ++ tr2))
             = after [EvCreate input_text (inl e); EvSplit input_text] (k w1)).
  { intros k. unfold bind, emit, after, result, final_world, trace.
    now destruct (k w1) as [[o w2] tr2]. }
  destruct e; try discriminate; cbn [oversize] in He;
    apply negb_true_iff in He; rewrite He; apply E.
Qed.

(** The classes of answers are exclusive and cover every exception. *)
Lemma exn_classes e :
  (handled e = false /\ frequency_limited e = false /\ oversize e = false
   /\ forall msg, e <> InternalServerError msg)
  \/ ((exists msg, e = InternalServerError msg)
      /\ frequency_limited e = false /\ oversize e = false)
  \/ (frequency_limited e = true /\ oversize e = false
      /\ forall msg, e <> InternalServerError msg)
  \/ (oversize e = true /\ frequency_limited e = false
      /\ forall msg, e <> InternalServerError msg).
Proof.
  destruct e as [m|m|m|m|m]; cbn [handled frequency_limited oversize].
  - right; left. repeat split. now exists m.
  - destruct (contains (lit "RMP") m); cbn [negb].
    + right; right; left. repeat split; congruence.
    + right; right; right. repeat split; congruence.
  - destruct (contains (lit "RMP") m); cbn [negb].
    + right; right; left. repeat split; congruence.
    + right; right; right. repeat split; congruence.
  - left. repeat split; congruence.
  - left. repeat split; congruence.
Qed.

End Step.

(** ** Failures of a run *)

Lemma answered_last_prefix (cl : Client) r w' pre tr :
  answered_last cl r w' tr -> answered_last cl r w' (pre ++ tr).
Proof.
  intros (user & w0 & tr0 & H & ->). exists user, w0, (pre ++ tr0).
  split; [exact H | now rewrite app_assoc].
Qed.

Lemma failure_ok_after (cl : Client) {A} (fuel : nat) pre
    (run : outcome A * world cl * list event) :
  failure_ok cl fuel run -> failure_ok cl fuel (after pre run).
Proof.
  destruct run as [[o w'] tr]. unfold failure_ok, after. cbn.
  destruct o as [a|e|]; [trivial | |].
  - intros [He Hl]. split; [exact He | now apply answered_last_prefix].
  - rewrite requests_app, length_app. lia.
Qed.

Lemma failure_ok_deeper (cl : Client) {A} (fuel : nat) user r pre
    (run : outcome A * world cl * list event) :
  failure_ok cl fuel run ->
  failure_ok cl (S fuel) (after (EvCreate user r :: pre) run).
Proof.
  destruct run as [[o w'] tr]. unfold failure_ok, after. cbn.
  destruct o as [a|e|]; [trivial | |].
  - intros [He Hl]. split; [exact He|].
    now apply (answered_last_prefix cl (inl e) w' (EvCreate user r :: pre) tr).
  - rewrite requests_app, length_app. lia.
Qed.

Lemma run_ok_deeper (cl : Client) (fuel : nat) user r pre
    (run : outcome ChatCompletion * world cl * list event) :
  run_ok cl fuel run -> run_ok cl (S fuel) (after (EvCreate user r :: pre) run).
Proof.
  intros [Hf Hr]. split; [now apply failure_ok_deeper|].
  destruct run as [[o w'] tr]. unfold after. cbn. intros chat ->.
  now apply (answered_last_prefix cl (inr chat) w' (EvCreate user r :: pre) tr), Hr.
Qed.

Lemma summarize_chunks_failure_ok (cl : Client) (fuel : nat)
    (query : str -> M cl ChatCompletion) :
  (forall chunk w, failure_ok cl fuel (query chunk w)) ->
  forall chunks acc w, failure_ok cl fuel (summarize_chunks query chunks acc w).
Proof.
  intros Hq. induction chunks as [|chunk chunks IH]; intros acc w.
  - exact I.
  - cbn [summarize_chunks]. specialize (Hq chunk w).
    destruct (query chunk w) as [[[chat|e|] w1] tr1] eqn:E.
    + rewrite (bind_run _ _ _ _ _ _ E). apply failure_ok_after, IH.
    + now rewrite (bind_raised _ _ _ _ _ _ E).
    + now rewrite (bind_out_of_fuel _ _ _ _ _ E).
Qed.

(** Every run of [groq_query] ends as [run_ok] says. *)
Lemma groq_query_run_ok (cl : Client) (fuel : nat) :
  forall input_text delay w, run_ok cl fuel (groq_query cl fuel input_text delay w).
Proof.
  induction fuel as [|fuel IH]; intros input_text delay w.
  - split; [cbn; lia | discriminate].
  - destruct (create cl w SYSTEM_PROMPT input_text) as [[e|chat] w1] eqn:E.
    + destruct (exn_classes e) as [(Hh & _) | [(Hi & _) | [(Hf & _) | (Ho & _)]]].
      * rewrite (groq_query_propagate cl fuel _ delay w w1 e E Hh).
        split; [|discriminate]. split; [exact Hh|].
        now exists input_text, w, [].
      * rewrite (groq_query_retry cl fuel _ delay w w1 e E (or_introl Hi)).
        apply run_ok_deeper, IH.
      * rewrite (groq_query_retry cl fuel _ delay w w1 e E (or_intror Hf)).
        apply run_ok_deeper, IH.
      * rewrite (groq_query_subdivide cl fuel _ delay w w1 e E Ho).
        apply run_ok_deeper.
        pose proof (summarize_chunks_failure_ok cl fuel
                      (fun chunk => groq_query cl fuel chunk default_delay)
                      (fun chunk w0 => proj1 (IH chunk default_delay w0))
                      (split_document_into_chunks input_text default_max_chunk_size)
                      [] w1) as Hloop.
        destruct (summarize_chunks _ _ _ w1) as [[[sums|e'|] w2] tr2] eqn:El.
        -- rewrite (bind_run _ _ _ _ _ _ El).
           destruct (IH (join (lit " ") sums) default_delay w2) as [Hf Hr].
           split; [now apply failure_ok_after|].
           destruct (groq_query cl fuel _ _ w2) as [[o w3] tr3].
           unfold after. cbn. intros chat ->.
           now apply answered_last_prefix, Hr.
        -- rewrite (bind_raised _ _ _ _ _ _ El). split; [exact Hloop | discriminate].
        -- rewrite (bind_out_of_fuel _ _ _ _ _ El). split; [exact Hloop | discriminate].
    + rewrite (groq_query_success cl fuel _ delay w w1 chat E).
      split; [exact I|]. cbn. intros chat' [= <-].
      now exists input_text, w, [].
Qed.

(** ** The texts of the answers, in the order of the chunks *)

Lemma summarize_chunks_in_order (cl : Client) (fuel : nat) :
  forall chunks acc w sums w' tr,
  summarize_chunks (fun chunk => groq_query cl fuel chunk default_delay)
    chunks acc w = (Returned sums, w', tr) ->
  exists new, sums = acc ++ new /\ in_order cl fuel w chunks new w'.
Proof.
  induction chunks as [|chunk chunks IH]; intros acc w sums w' tr H.
  - cbn in H. inversion H; subst. exists []. split; [now rewrite app_nil_r|].
    constructor.
  - cbn [summarize_chunks] in H.
    destruct (groq_query cl fuel chunk default_delay w) as [[[chat|e|] w1] tr1] eqn:E.
    + rewrite (bind_run _ _ _ _ _ _ E) in H.
      destruct (summarize_chunks _ chunks (acc ++ [content chat]) w1)
        as [[o w2] tr2] eqn:El.
      unfold after in H. cbn in H. inversion H; subst.
      destruct (IH _ _ _ _ _ El) as (new & -> & Hio).
      exists (content chat :: new). split; [now rewrite <- app_assoc|].
      econstructor; eassumption.
    + rewrite (bind_raised _ _ _ _ _ _ E) in H. discriminate.
    + rewrite (bind_out_of_fuel _ _ _ _ _ E) in H. discriminate.
Qed.

Lemma in_order_length (cl : Client) (fuel : nat) w chunks sums w' :
  in_order cl fuel w chunks sums w' -> List.length sums = List.length chunks.
Proof. induction 1; simpl; congruence. Qed.

(** ** The seconds slept *)

Lemma summarize_chunks_sleeps (cl : Client) (P : Z -> Prop)
    (query : str -> M cl ChatCompletion) :
  (forall chunk w, Forall P (sleeps (trace (query chunk w)))) ->
  forall chunks acc w,
  Forall P (sleeps (trace (summarize_chunks query chunks acc w))).
Proof.
  intros Hq. induction chunks as [|chunk chunks IH]; intros acc w.
  - constructor.
  - cbn [summarize_chunks]. specialize (Hq chunk w).
    destruct (query chunk w) as [[[chat|e|] w1] tr1] eqn:E.
    + rewrite (bind_run _ _ _ _ _ _ E). unfold after. cbn [trace snd].
      rewrite sleeps_app. apply Forall_app. split; [exact Hq | apply IH].
    + now rewrite (bind_raised _ _ _ _ _ _ E).
    + now rewrite (bind_out_of_fuel _ _ _ _ _ E).
Qed.

Lemma subdivide_sleeps (cl : Client) (fuel : nat) :
  (forall text w,
     Forall (eq default_delay)
       (sleeps (trace (groq_query cl fuel text default_delay w)))) ->
  forall chunks w,
  Forall (eq default_delay)
    (sleeps (trace
       ((summarized_chunks <-
           summarize_chunks (fun chunk => groq_query cl fuel chunk default_delay)
             chunks [] ;;
         groq_query cl fuel (join (lit " ") summarized_chunks) default_delay) w))).
Proof.
  intros IH chunks w.
  pose proof (summarize_chunks_sleeps cl (eq default_delay)
                (fun chunk => groq_query cl fuel chunk default_delay)
                IH chunks [] w) as Hloop.
  destruct (summarize_chunks _ _ _ w) as [[[sums|e'|] w2] tr2] eqn:El.
  - rewrite (bind_run _ _ _ _ _ _ El). unfold after. cbn [trace snd].
    rewrite sleeps_app. apply Forall_app. split; [exact Hloop | apply IH].
  - now rewrite (bind_raised _ _ _ _ _ _ El).
  - now rewrite (bind_out_of_fuel _ _ _ _ _ El).
Qed.

(** The wait of the call itself, if any, lasts [delay]; every other wait
    lasts the default delay. *)
Lemma groq_query_sleeps_default (cl : Client) (fuel : nat) :
  forall text w,
  Forall (eq default_delay)
    (sleeps (trace (groq_query cl fuel text default_delay w))).
Proof.
  induction fuel as [|n IH]; intros text w; [constructor|].
  destruct (create cl w SYSTEM_PROMPT text) as [[e|chat] w1] eqn:E.
  - destruct (exn_classes e) as [(Hh & _) | [(Hi & _) | [(Hf & _) | (Ho & _)]]].
    + rewrite (groq_query_propagate cl n _ _ w w1 e E Hh). constructor.
    + rewrite (groq_query_retry cl n _ _ w w1 e E (or_introl Hi)).
      cbn. constructor; [reflexivity | apply IH].
    + rewrite (groq_query_retry cl n _ _ w w1 e E (or_intror Hf)).
      cbn. constructor; [reflexivity | apply IH].
    + rewrite (groq_query_subdivide cl n _ _ w w1 e E Ho).
      cbn. now apply subdivide_sleeps.
  - rewrite (groq_query_success cl n _ _ w w1 chat E). constructor.
Qed.

Lemma groq_query_sleeps (cl : Client) (fuel : nat) input_text delay w :
  exists rest,
    Forall (eq default_delay) rest /\
    sleeps (trace (groq_query cl (S fuel) input_text delay w))
    = (if retried (fst (create cl w SYSTEM_PROMPT input_text))
       then [delay] else []) ++ rest.
Proof.
  destruct (create cl w SYSTEM_PROMPT input_text) as [[e|chat] w1] eqn:E;
    cbn [fst].
  - destruct (exn_classes e) as [(Hh & Hf & _ & Hi) | [(Hi & _) | [(Hf & _) | (Ho & Hf & Hi)]]].
    + rewrite (groq_query_propagate cl fuel _ _ w w1 e E Hh).
      exists []. split; [constructor|].
      destruct e; cbn [retried] in *; try rewrite Hf; try reflexivity.
      now specialize (Hi msg).
    + rewrite (groq_query_retry cl fuel _ _ w w1 e E (or_introl Hi)).
      destruct Hi as [msg ->]. cbn. eexists.
      split; [apply groq_query_sleeps_default | reflexivity].
    + rewrite (groq_query_retry cl fuel _ _ w w1 e E (or_intror Hf)).
      assert (Hr : retried (inl e) = true) by (destruct e; easy).
      rewrite Hr. cbn. eexists.
      split; [apply groq_query_sleeps_default | reflexivity].
    + rewrite (groq_query_subdivide cl fuel _ _ w w1 e E Ho).
      assert (Hr : retried (inl e) = false).
      { destruct e; cbn [retried] in *; try rewrite Hf; try reflexivity.
        now specialize (Hi msg). }
      rewrite Hr. cbn. eexists. split; [|reflexivity].
      apply subdivide_sleeps, groq_query_sleeps_default.
  - rewrite (groq_query_success cl fuel _ _ w w1 chat E). exists [].
    split; [constructor | reflexivity].
Qed.

(** ** Summarizers that never give in *)

Lemma requests_after {cl A} (pre : list event)
    (run : outcome A * world cl * list event) :
  requests (trace (after pre run)) = requests pre ++ requests (trace run).
Proof. unfold after. cbn [trace snd]. apply requests_app. Qed.

(** A text that chunks into itself and is always rejected as too large is
    requested again at every depth. *)
Lemma oversize_single_chunk_loops (cl : Client) (text : str) :
  split_document_into_chunks text default_max_chunk_size = [text] ->
  (forall w, exists e w1,
      create cl w SYSTEM_PROMPT text = (inl e, w1) /\ oversize e = true) ->
  forall fuel delay w,
    result (groq_query cl fuel text delay w) = OutOfFuel
    /\ requests (trace (groq_query cl fuel text delay w)) = repeat text fuel.
Proof.
  intros Hsplit Hrej. induction fuel as [|fuel IH]; intros delay w.
  - now split.
  - destruct (Hrej w) as (e & w1 & E & Ho).
    rewrite (groq_query_subdivide cl fuel _ delay w w1 e E Ho), Hsplit.
    cbn [summarize_chunks].
    destruct (IH default_delay w1) as [Hres Hreq].
    destruct (groq_query cl fuel text default_delay w1) as [[o w2] tr2] eqn:Eq.
    cbn in Hres, Hreq. subst o.
    rewrite (bind_out_of_fuel _ _ _ _ _
               (bind_out_of_fuel _ _ _ _ _ Eq)).
    split; [reflexivity|]. rewrite requests_after. cbn. now rewrite Hreq.
Qed.

(** A service that is unstable at every request is asked again at every
    depth. *)
Lemma unstable_loops (cl : Client) :
  (forall w text, exists msg w1,
      create cl w SYSTEM_PROMPT text = (inl (InternalServerError msg), w1)) ->
  forall fuel text delay w,
    result (groq_query cl fuel text delay w) = OutOfFuel
    /\ requests (trace (groq_query cl fuel text delay w)) = repeat text fuel.
Proof.
  intros Hun. induction fuel as [|fuel IH]; intros text delay w.
  - now split.
  - destruct (Hun w text) as (msg & w1 & E).
    rewrite (groq_query_retry cl fuel _ delay w w1 _ E
               (or_introl (ex_intro _ msg eq_refl))).
    destruct (IH text default_delay (sleep cl w1 delay)) as [Hres Hreq].
    split; [exact Hres|]. rewrite requests_after. cbn. now rewrite Hreq.
Qed.

(** The loop of [v9docsumvim.py] on such a service. *)
Lemma v9_while_attempts_unstable (cl : Client) (chunk : str) :
  (forall w, exists msg w1,
      create cl w V9.SUMMARY_PROMPT chunk = (inl (InternalServerError msg), w1)) ->
  forall fuel attempts w,
    0 <= attempts -> attempts + Z.of_nat fuel = V9.RETRY_LIMIT ->
    result (V9.while_attempts cl fuel attempts chunk w) = Raised V9.FAILED
    /\ requests (trace (V9.while_attempts cl fuel attempts chunk w))
       = repeat chunk fuel.
Proof.
  intros Hun. induction fuel as [|fuel IH]; intros attempts w Ha Hsum.
  - cbn [V9.while_attempts].
    destruct (Z.ltb_spec attempts V9.RETRY_LIMIT); [lia|]. now split.
  - cbn [V9.while_attempts].
    destruct (Z.ltb_spec attempts V9.RETRY_LIMIT); [|lia].
    destruct (Hun w) as (msg & w1 & E).
    destruct (IH (attempts + 1) (sleep cl w1 V9.RETRY_DELAY)) as [Hres Hreq];
      [lia | lia |].
    match goal with
    | |- result ?run = _ /\ _ =>
        assert (Estep : run
                = after [EvCreate chunk (inl (InternalServerError msg));
                         EvAttemptFailed (attempts + 1) (InternalServerError msg);
                         EvSleep V9.RETRY_DELAY]
                    (V9.while_attempts cl fuel (attempts + 1) chunk
                       (sleep cl w1 V9.RETRY_DELAY)))
    end.
    { unfold try_except, bind, chat_completions_create, emit, time_sleep, after,
        result, final_world, trace.
      rewrite E.
      now destruct (V9.while_attempts cl fuel (attempts + 1) chunk _) as [[o w2] tr2]. }
    rewrite Estep. split; [exact Hres|].
    rewrite requests_after. cbn. now rewrite Hreq.
Qed.

(* ================================================================== *)
(** * The properties of the chunker *)

(** C5 (chunk coverage): for every document [d] and size bound [s], the
    chunks of [split_document_into_chunks d s], joined again by the
    paragraph separator, are the cleaned paragraphs of [d] (the pieces of
    [re.split] stripped, the empty ones dropped) joined by the separator,
    in the same order; and the empty document has no chunk. *)
Theorem chunk_coverage (d : str) (s : Z) :
  join SEP (split_document_into_chunks d s) = join SEP (cleaned_paragraphs d)
  /\ split_document_into_chunks [] s = [].
Proof.
  split; [|reflexivity].
  destruct (chunks_groups d s) as (groups & -> & <- & Hg).
  apply join_concat. revert Hg. apply Forall_impl.
  intros g. apply good_group_nonempty.
Qed.

(** C6 (soft chunk bound): every chunk of [split_document_into_chunks text s]
    has at most [s] characters, unless it is one cleaned paragraph of
    [text], unchanged, that has more than [s] characters itself; and every
    cleaned paragraph of more than [s] characters is a chunk of its own. *)
Theorem chunk_soft_bound (text : str) (s : Z) :
  (forall c, In c (split_document_into_chunks text s) ->
     len c <= s \/ (s < len c /\ In c (cleaned_paragraphs text)))
  /\ (forall p, In p (cleaned_paragraphs text) -> s < len p ->
        In p (split_document_into_chunks text s)).
Proof.
  destruct (chunks_groups text s) as (groups & -> & <- & Hg).
  rewrite Forall_forall in Hg. split.
  - intros c Hc. apply in_map_iff in Hc. destruct Hc as (g & <- & Hin).
    destruct (good_group_cases s g (Hg g Hin)) as [[p ->] | [Hle _]].
    + cbn [join]. destruct (Z_le_gt_dec (len p) s); [now left|]. right.
      split; [lia|]. apply in_concat. exists [p]. split; [exact Hin | now left].
    + now left.
  - intros p Hp Hlen. apply in_concat in Hp. destruct Hp as (g & Hin & Hpg).
    apply in_map_iff. exists g. split; [|exact Hin].
    destruct (good_group_cases s g (Hg g Hin)) as [[q ->] | [_ Hsmall]].
    + destruct Hpg as [-> | []]. reflexivity.
    + specialize (Hsmall p Hpg). lia.
Qed.

(** C9 (chunks are fixed points): every chunk [c] of
    [split_document_into_chunks text s] is chunked, with the same bound,
    into the one-element list [[c]]. *)
Theorem chunk_is_fixed_point (text : str) (s : Z) (c : str) :
  In c (split_document_into_chunks text s) ->
  split_document_into_chunks c s = [c].
Proof.
  destruct (chunks_groups text s) as (groups & -> & Hc & Hg).
  intros Hin. apply in_map_iff in Hin. destruct Hin as (g & <- & Hin).
  rewrite Forall_forall in Hg.
  pose proof (cleaned_paragraphs_ok text) as Hok. rewrite <- Hc in Hok.
  apply Forall_concat_inv in Hok. rewrite Forall_forall in Hok.
  apply chunk_of_group_fixed; auto.
Qed.

(** A document of a long paragraph, a blank line and a short one. *)
Lemma chunk_soft_bound_witness :
  let text := letters 12 ++ SEP ++ lit "  bb " in
  (len (letters 12) <= 5 \/ (5 < len (letters 12)
                             /\ In (letters 12) (cleaned_paragraphs text)))
  /\ In (letters 12) (split_document_into_chunks text 5).
Proof.
  intros text. destruct (chunk_soft_bound text 5) as [Hbound Hkept]. split.
  - apply Hbound. vm_compute. now left.
  - apply Hkept; [vm_compute; now left | vm_compute; reflexivity].
Defined.

Lemma chunk_is_fixed_point_witness :
  let text := para1 ++ SEP ++ para2 ++ SEP ++ para3 ++ SEP ++ para4 in
  In (para1 ++ SEP ++ para2) (split_document_into_chunks text 60)
  /\ split_document_into_chunks (para1 ++ SEP ++ para2) 60
     = [para1 ++ SEP ++ para2].
Proof.
  intros text.
  assert (H : In (para1 ++ SEP ++ para2) (split_document_into_chunks text 60))
    by (vm_compute; now left).
  split; [exact H | exact (chunk_is_fixed_point text 60 _ H)].
Defined.

(* ================================================================== *)
(** * The properties of the query engine *)

(** C4 (frequency limit): when the request of [groq_query] fails with a
    rate-limit or bad-request error whose message contains ['RMP'], the
    call waits [delay] seconds and goes on as [groq_query] on the same
    text, with no call of the chunker in between; and a call goes from its
    request straight to the chunker exactly when the request failed with a
    rate-limit or bad-request error without ['RMP'] in its message. *)
Theorem frequency_limit_retries_same_text (cl : Client) (fuel : nat)
    (input_text : str) (delay : Z) (w w1 : world cl) (r : response) :
  create cl w SYSTEM_PROMPT input_text = (r, w1) ->
  (forall e, r = inl e -> frequency_limited e = true ->
     groq_query cl (S fuel) input_text delay w
     = after [EvCreate input_text r; EvSleep delay]
         (groq_query cl fuel input_text default_delay (sleep cl w1 delay)))
  /\ splits_first (trace (groq_query cl (S fuel) input_text delay w))
     = match r with
       | inl e => oversize e
       | inr _ => false
       end.
Proof.
  intros E. split.
  - intros e -> He. now apply groq_query_retry; [|right].
  - destruct r as [e|chat].
    + destruct (exn_classes e) as [(Hh & _ & Ho & _) | [(Hi & _ & Ho) | [(Hf & Ho & _) | (Ho & _)]]];
        rewrite Ho.
      * now rewrite (groq_query_propagate cl fuel _ delay w w1 e E Hh).
      * now rewrite (groq_query_retry cl fuel _ delay w w1 e E (or_introl Hi)).
      * now rewrite (groq_query_retry cl fuel _ delay w w1 e E (or_intror Hf)).
      * now rewrite (groq_query_subdivide cl fuel _ delay w w1 e E Ho).
    + now rewrite (groq_query_success cl fuel _ delay w w1 chat E).
Qed.

(** The first request is refused for frequency, the second is answered. *)
Lemma frequency_limit_retries_same_text_witness :
  let cl := busy_once (lit "ok") in
  let e := RateLimitError (lit "Rate limit reached: Requests Per Minute (RMP)") in
  groq_query cl 2 (lit "hello") 7 0%nat
  = after [EvCreate (lit "hello") (inl e); EvSleep 7]
      (groq_query cl 1 (lit "hello") default_delay 1%nat)
  /\ splits_first (trace (groq_query cl 2 (lit "hello") 7 0%nat)) = false.
Proof.
  intros cl e.
  destruct (frequency_limit_retries_same_text cl 1 (lit "hello") 7
              0%nat 1%nat (inl e) eq_refl) as [Hretry Hsplit].
  split.
  - apply (Hretry e); reflexivity.
  - rewrite Hsplit. reflexivity.
Defined.

(** C7 (order under subdivision): when [groq_query], at any depth, takes
    the subdivision path and returns, every chunk of the input has been
    queried in turn and has returned, the summaries are the texts of these
    answers, one for each chunk and in the order of the chunks, and the
    call has gone on as [groq_query] on these summaries joined by a space;
    if the query of a chunk does not return, neither does the call. *)
Theorem subdivision_preserves_order (cl : Client) (fuel : nat)
    (input_text : str) (delay : Z) (w w1 w' : world cl) (e : exn)
    (chat : ChatCompletion) (tr : list event) :
  create cl w SYSTEM_PROMPT input_text = (inl e, w1) ->
  oversize e = true ->
  groq_query cl (S fuel) input_text delay w = (Returned chat, w', tr) ->
  exists summarized_chunks w2 tr',
    in_order cl fuel w1
      (split_document_into_chunks input_text default_max_chunk_size)
      summarized_chunks w2
    /\ List.length summarized_chunks
       = List.length (split_document_into_chunks input_text default_max_chunk_size)
    /\ groq_query cl fuel (join (lit " ") summarized_chunks) default_delay w2
       = (Returned chat, w', tr').
Proof.
  intros E Ho H.
  rewrite (groq_query_subdivide cl fuel _ delay w w1 e E Ho) in H.
  destruct (summarize_chunks
              (fun chunk => groq_query cl fuel chunk default_delay)
              (split_document_into_chunks input_text default_max_chunk_size)
              [] w1) as [[[sums|e'|] w2] tr2] eqn:El.
  - rewrite (bind_run _ _ _ _ _ _ El), after_after in H.
    destruct (summarize_chunks_in_order cl fuel _ _ _ _ _ _ El)
      as (new & -> & Hio).
    cbn [app] in *.
    destruct (groq_query cl fuel (join (lit " ") new) default_delay w2)
      as [[o w3] tr3] eqn:Eq.
    unfold after in H. cbn in H. inversion H; subst.
    exists new, w2, tr3. split; [exact Hio|]. split; [|exact Eq].
    now apply in_order_length with cl fuel w1 w2.
  - rewrite (bind_raised _ _ _ _ _ _ El) in H. discriminate.
  - rewrite (bind_out_of_fuel _ _ _ _ _ El) in H. discriminate.
Qed.

(** Two paragraphs of 2000 letters and a service that takes 3000
    characters at most: the text is rejected, each paragraph is summarized,
    and so are the two summaries. *)
Lemma subdivision_preserves_order_witness :
  let cl := rejects_over 3000 (lit "ok") in
  let text := letters 2000 ++ SEP ++ letters 2000 in
  exists summarized_chunks w2 tr',
    in_order cl 1 tt (split_document_into_chunks text default_max_chunk_size)
      summarized_chunks w2
    /\ List.length summarized_chunks
       = List.length (split_document_into_chunks text default_max_chunk_size)
    /\ groq_query cl 1 (join (lit " ") summarized_chunks) default_delay w2
       = (Returned {| content := lit "ok" |}, tt, tr').
Proof.
  intros cl text.
  apply (subdivision_preserves_order cl 1 text default_delay tt tt tt
           (BadRequestError (lit "Request too large"))
           {| content := lit "ok" |}
           (trace (groq_query cl 2 text default_delay tt))).
  - vm_compute. reflexivity.
  - vm_compute. reflexivity.
  - vm_compute. reflexivity.
Defined.

(** C10 (the delay): of the waits of a run of [groq_query], only the wait
    of the call itself, the one that follows its own request when this
    request fails as unstable or for frequency, lasts [delay]; every later
    wait, in a retry or in the query of a chunk, lasts the default delay of
    5 seconds. *)
Theorem delay_only_first_wait (cl : Client) (fuel : nat) (input_text : str)
    (delay : Z) (w : world cl) :
  default_delay = 5 /\
  exists rest,
    Forall (eq default_delay) rest /\
    sleeps (trace (groq_query cl fuel input_text delay w))
    = match fuel with
      | O => []
      | S _ =>
          if retried (fst (create cl w SYSTEM_PROMPT input_text))
          then [delay] else []
      end ++ rest.
Proof.
  split; [reflexivity|]. destruct fuel as [|fuel].
  - exists []. split; [constructor | reflexivity].
  - apply groq_query_sleeps.
Qed.

(** C1 (irreducible oversize), as the code has it: when the input chunks
    into itself and every request of it is rejected as too large,
    [groq_query] neither returns nor raises; at every depth it chunks the
    text into itself and requests it again, so that a run of depth [fuel]
    ends by using up the depth, after exactly [fuel] requests of the same
    text. *)
Theorem irreducible_oversize_exhausts_depth (cl : Client) (text : str) :
  split_document_into_chunks text default_max_chunk_size = [text] ->
  (forall w, exists e w1,
      create cl w SYSTEM_PROMPT text = (inl e, w1) /\ oversize e = true) ->
  forall fuel delay w,
    result (groq_query cl fuel text delay w) = OutOfFuel
    /\ requests (trace (groq_query cl fuel text delay w)) = repeat text fuel.
Proof. apply oversize_single_chunk_loops. Qed.

Lemma rejects_over_oversize (limit : Z) (answer text : str) :
  limit < len text ->
  forall w : world (rejects_over limit answer), exists e w1,
    create (rejects_over limit answer) w SYSTEM_PROMPT text = (inl e, w1)
    /\ oversize e = true.
Proof.
  intros H w. exists (BadRequestError (lit "Request too large")), w.
  split; [|reflexivity]. cbn [create rejects_over].
  destruct (Z.gtb_spec (len text) limit); [reflexivity | lia].
Qed.

(** One paragraph of 10000 letters and a service that takes 50 characters
    at most, at depth 3. *)
Lemma irreducible_oversize_exhausts_depth_witness :
  let cl := rejects_over 50 (lit "ok") in
  result (groq_query cl 3 long_paragraph default_delay tt) = OutOfFuel
  /\ requests (trace (groq_query cl 3 long_paragraph default_delay tt))
     = repeat long_paragraph 3.
Proof.
  intros cl.
  apply (irreducible_oversize_exhausts_depth cl long_paragraph).
  - vm_compute. reflexivity.
  - apply rejects_over_oversize. vm_compute. reflexivity.
Defined.

(** C1, as the claim states it, fails: on one paragraph of 10000 letters
    that the service always rejects, no depth makes [groq_query] end with
    an exception. *)
Lemma irreducible_oversize_no_explicit_failure :
  ~ exists fuel e,
      result (groq_query (rejects_over 50 (lit "ok")) fuel long_paragraph
                default_delay tt) = Raised e.
Proof.
  intros (fuel & e & H).
  destruct (oversize_single_chunk_loops (rejects_over 50 (lit "ok"))
              long_paragraph) with (fuel := fuel) (delay := default_delay)
              (w := tt) as [Hres _].
  - vm_compute. reflexivity.
  - apply rejects_over_oversize. vm_compute. reflexivity.
  - rewrite Hres in H. discriminate.
Qed.

(** C2 (retry termination), as the code has it: against a service that is
    unstable at every request, [summarize_chunk] of [v9docsumvim.py] raises
    its exception after exactly [RETRY_LIMIT] requests, while [groq_query]
    has no retry count: a run of depth [fuel] ends by using up the depth,
    after exactly [fuel] requests of the same text. *)
Theorem transient_fault_retry_bounds (cl : Client) :
  (forall w system text, exists msg w1,
      create cl w system text = (inl (InternalServerError msg), w1)) ->
  (forall chunk w,
      result (V9.summarize_chunk cl chunk w) = Raised V9.FAILED
      /\ requests (trace (V9.summarize_chunk cl chunk w))
         = repeat chunk (Z.to_nat V9.RETRY_LIMIT))
  /\ (forall fuel text delay w,
        result (groq_query cl fuel text delay w) = OutOfFuel
        /\ requests (trace (groq_query cl fuel text delay w)) = repeat text fuel).
Proof.
  intros Hun. split.
  - intros chunk w. apply v9_while_attempts_unstable.
    + intros w0. apply Hun.
    + lia.
    + reflexivity.
  - apply unstable_loops. intros w text. apply Hun.
Qed.

Lemma always_unstable_fails (w : world always_unstable) (system text : str) :
  exists msg w1,
    create always_unstable w system text = (inl (InternalServerError msg), w1).
Proof. now exists (lit "unstable"), w. Qed.

Lemma transient_fault_retry_bounds_witness :
  (result (V9.summarize_chunk always_unstable (lit "text") tt) = Raised V9.FAILED
   /\ requests (trace (V9.summarize_chunk always_unstable (lit "text") tt))
      = repeat (lit "text") 3)
  /\ (result (groq_query always_unstable 1000 (lit "text") default_delay tt)
      = OutOfFuel
      /\ requests (trace (groq_query always_unstable 1000 (lit "text")
                            default_delay tt))
         = repeat (lit "text") 1000).
Proof.
  destruct (transient_fault_retry_bounds always_unstable always_unstable_fails)
    as [Hv9 Hgq].
  split; [apply Hv9 | apply Hgq].
Defined.

(** C2, as the claim states it, fails: against a service that is always
    unstable, no depth makes [groq_query] end with an exception. *)
Lemma groq_query_retries_without_bound :
  ~ exists fuel e,
      result (groq_query always_unstable fuel (lit "text") default_delay tt)
      = Raised e.
Proof.
  intros (fuel & e & H).
  destruct (unstable_loops always_unstable
              (fun w text => always_unstable_fails w SYSTEM_PROMPT text)
              fuel (lit "text") default_delay tt) as [Hres _].
  rewrite Hres in H. discriminate.
Qed.

(** C3 (outcomes), as the code has it: a run of [groq_query] of depth
    [fuel] ends in one of three ways.  It returns the completion that the
    client gave to the last request of the run; or it raises an exception
    of the client that is none of the three it catches, raised by the last
    request of the run; or it uses up the depth, after [fuel] requests at
    least. *)
Theorem groq_query_outcomes (cl : Client) (fuel : nat) (input_text : str)
    (delay : Z) (w : world cl) :
  let run := groq_query cl fuel input_text delay w in
  match result run with
  | Returned chat => answered_last cl (inr chat) (final_world run) (trace run)
  | Raised e =>
      handled e = false
      /\ answered_last cl (inl e) (final_world run) (trace run)
  | OutOfFuel => (fuel <= List.length (requests (trace run)))%nat
  end.
Proof.
  intros run. destruct (groq_query_run_ok cl fuel input_text delay w) as [Hf Hr].
  fold run in Hf, Hr. unfold failure_ok in Hf.
  destruct (result run) as [chat|e|]; [now apply Hr | exact Hf | exact Hf].
Qed.

(** C3, as the claim states it, fails: a client that answers with an empty
    summary makes [groq_query] return it, and against a service that is
    always unstable no depth makes [groq_query] return or raise. *)
Lemma groq_query_empty_or_no_answer :
  result (groq_query (answers_with []) 1 (lit "text") default_delay tt)
  = Returned {| content := [] |}
  /\ ~ exists fuel,
         result (groq_query always_unstable fuel (lit "text") default_delay tt)
         <> OutOfFuel.
Proof.
  split; [reflexivity|]. intros (fuel & H). apply H.
  apply (unstable_loops always_unstable
           (fun w text => always_unstable_fails w SYSTEM_PROMPT text)).
Qed.

(** C8 (final pass), as the code has it: whenever the script of
    [testdocsum.py] succeeds, what it prints is the summary in the answer
    of the client to the last request of the run. *)
Theorem main_output_is_last_answer (cl : Client) (fuel : nat)
    (file_text summary_txt : str) (w w' : world cl) (tr : list event) :
  main cl fuel file_text w = (Returned summary_txt, w', tr) ->
  exists summary_chat,
    summary_txt = content summary_chat
    /\ answered_last cl (inr summary_chat) w' tr.
Proof.
  intros H. unfold main in H.
  destruct (groq_query_run_ok cl fuel file_text default_delay w) as [_ Hr].
  destruct (groq_query cl fuel file_text default_delay w)
    as [[[chat|e|] w1] tr1] eqn:E.
  - rewrite (bind_run _ _ _ _ _ _ E) in H. unfold after, ret in H. cbn in H.
    inversion H; subst. exists chat. split; [reflexivity|].
    rewrite app_nil_r. now apply Hr.
  - rewrite (bind_raised _ _ _ _ _ _ E) in H. discriminate.
  - rewrite (bind_out_of_fuel _ _ _ _ _ E) in H. discriminate.
Qed.

Lemma main_output_is_last_answer_witness :
  let cl := rejects_over 3000 (lit "ok") in
  let text := letters 2000 ++ SEP ++ letters 2000 in
  exists summary_chat,
    lit "ok" = content summary_chat
    /\ answered_last cl (inr summary_chat) tt (trace (main cl 2 text tt)).
Proof.
  intros cl text.
  apply (main_output_is_last_answer cl 2 text (lit "ok") tt tt).
  vm_compute. reflexivity.
Defined.

(** C8, as the claim states it, fails on the script of
    [old_code/v11docsumvim.py]: on a text of two chunks it prints a header
    and the two summaries joined by a space, which is the answer to none of
    its requests. *)
Lemma v11_prints_raw_concatenation :
  let run :=
    V11.main (answers_with (lit "S")) (lit "f")
      (letters (V11.default_chunk_size + 1)) tt in
  result run = Returned (lit "This is a summary of the file 'f': S S")
  /\ List.length (requests (trace run)) = 2%nat
  /\ ~ exists user chat,
         In (EvCreate user (inr chat)) (trace run)
         /\ result run = Returned (content chat).
Proof.
  intros run.
  assert (Hres : result run = Returned (lit "This is a summary of the file 'f': S S"))
    by (vm_compute; reflexivity).
  assert (Htr : trace run
          = [EvCreate (letters V11.default_chunk_size)
               (inr {| content := lit "S" |});
             EvCreate (letters 1) (inr {| content := lit "S" |})])
    by (vm_compute; reflexivity).
  split; [exact Hres|]. split; [now rewrite Htr|].
  intros (user & chat & Hin & Hout). rewrite Htr in Hin. rewrite Hres in Hout.
  destruct Hin as [Hin | [Hin | []]]; inversion Hin; subst; discriminate.
Qed.

(* ================================================================== *)
(** * Further facts about the chunker *)

Lemma split_via_cleaned (text : str) (s : Z) :
  split_document_into_chunks text s
  = flush (fold_left (pack s) (cleaned_paragraphs text) ([], [])).
Proof. unfold split_document_into_chunks. now destruct text. Qed.

(** The groups of [chunks_groups], with what is known of their paragraphs. *)
Lemma chunks_groups_ok (text : str) (s : Z) :
  exists groups,
    split_document_into_chunks text s = map (join SEP) groups
    /\ concat groups = cleaned_paragraphs text
    /\ Forall (fun g => good_group s g = true) groups
    /\ Forall (Forall para_ok) groups.
Proof.
  destruct (chunks_groups text s) as (groups & E & Hc & Hg).
  exists groups. repeat (split; [assumption|]).
  apply Forall_concat_inv. rewrite Hc. apply cleaned_paragraphs_ok.
Qed.

Lemma group_chunk_stripped (s : Z) (g : list str) :
  good_group s g = true -> Forall para_ok g -> stripped (join SEP g).
Proof.
  intros Hg Hok. destruct g as [|p rest]; [discriminate|].
  now apply stripped_join, para_ok_stripped.
Qed.

Lemma cleaned_paragraphs_chunks (s : Z) (groups : list (list str)) :
  Forall (fun g => good_group s g = true) groups ->
  Forall (Forall para_ok) groups ->
  concat (map cleaned_paragraphs (map (join SEP) groups)) = concat groups.
Proof.
  induction 1 as [|g groups Hg _ IH]; intros Hok; [reflexivity|].
  inversion Hok as [|? ? Hgok Hrest]; subst. cbn [map concat].
  rewrite cleaned_paragraphs_join, IH; auto.
  now apply good_group_nonempty with s.
Qed.

Lemma groups_nil_iff (s : Z) (groups : list (list str)) :
  Forall (fun g => good_group s g = true) groups ->
  (groups = [] <-> concat groups = []).
Proof.
  intros Hg. split; [now intros ->|].
  destruct groups as [|g groups]; [reflexivity|].
  inversion Hg as [|? ? H _]; subst. destruct g; [discriminate|]. discriminate.
Qed.

(** ** A document that fits in one chunk *)

Lemma len_join_head (sep x : str) (r : list str) :
  len x <= len (join sep (x :: r)).
Proof.
  destruct r as [|y r]; [cbn [join]; lia|].
  rewrite join_cons by discriminate. rewrite !len_app.
  pose proof (len_nonneg sep). pose proof (len_nonneg (join sep (y :: r))). lia.
Qed.

Lemma fits_packs (s : Z) (rest : list str) :
  forall cur, len (join SEP (cur :: rest)) <= s -> packs s cur rest = true.
Proof.
  induction rest as [|q rest IH]; intros cur H; [reflexivity|].
  cbn [packs]. rewrite <- join_merge_head in H.
  pose proof (len_join_head SEP (cur ++ SEP ++ q) rest) as Hh.
  rewrite !len_app, len_SEP in Hh.
  apply andb_true_iff. split; [|now apply IH].
  apply Z.leb_le. apply Z.le_trans with (2 := H).
  apply Z.le_trans with (2 := Hh). lia.
Qed.

(** ** A bound under which nothing can be packed *)

Lemma stripped_len (p : str) : stripped p -> 1 <= len p.
Proof.
  intros (Hn & _). destruct p; [congruence|]. unfold len. simpl List.length. lia.
Qed.

Lemma pack_loop_singletons (s : Z) (ps : list str) :
  s <= 3 ->
  forall chunks cur, Forall stripped (cur :: ps) ->
  flush (fold_left (pack s) ps (chunks, cur)) = chunks ++ cur :: ps.
Proof.
  intros Hs. induction ps as [|q ps IH]; intros chunks cur Hall.
  - inversion Hall as [|? ? Hc _]; subst. cbn [fold_left flush].
    now rewrite (stripped_truthy _ Hc), (stripped_strip _ Hc).
  - inversion Hall as [|? ? Hc Hrest]; subst.
    inversion Hrest as [|? ? Hq _]; subst.
    pose proof (stripped_len _ Hc). pose proof (stripped_len _ Hq).
    cbn [fold_left]. rewrite pack_overflow by (assumption || lia).
    rewrite IH by assumption. now rewrite <- app_assoc.
Qed.

(** ** White space *)

Lemma lstrip_nil_iff (s : str) : lstrip s = [] <-> allspace s.
Proof.
  unfold allspace. induction s as [|c s IH]; cbn [lstrip].
  - split; [constructor | reflexivity].
  - destruct (isspace c) eqn:E.
    + rewrite IH. split; [now constructor | now inversion 1].
    + split; [discriminate|]. inversion 1; congruence.
Qed.

Lemma strip_nil_iff (s : str) : strip s = [] <-> allspace s.
Proof.
  rewrite <- lstrip_nil_iff. unfold strip. split.
  - intros H. destruct (lstrip s) as [|c t] eqn:E; [reflexivity|].
    assert (Hc : isspace c = false).
    { clear H. induction s as [|d s IH]; [discriminate|]. cbn [lstrip] in E.
      destruct (isspace d) eqn:Ed; [now apply IH|]. now inversion E; subst. }
    destruct (rstrip_head c t Hc) as [r Hr]. rewrite Hr in H. discriminate.
  - now intros ->.
Qed.

Lemma re_split_go_allspace (text : str) :
  forall b, Forall allspace (re_split_go b text) <-> allspace text.
Proof.
  induction text as [|c rest IH]; intros b.
  - cbn. split; [constructor | repeat constructor].
  - assert (Hpush : Forall allspace (push_front c (re_split_go false rest))
                    <-> allspace (c :: rest)).
    { destruct (re_split_go_first false rest) as (p & ps & E).
      specialize (IH false). rewrite E in *. cbn [push_front].
      unfold allspace in *. split.
      - intros H. inversion H as [|? ? Hcp Hps]; subst.
        inversion Hcp; subst. constructor; [assumption|].
        apply IH. now constructor.
      - intros H. inversion H as [|? ? Hc Hrest]; subst.
        apply IH in Hrest. inversion Hrest; subst.
        constructor; [now constructor | assumption]. }
    assert (Hnl : is_nl c = true -> forall b',
              Forall allspace (re_split_go b' rest) <-> allspace (c :: rest)).
    { intros Hc b'. rewrite IH. unfold allspace.
      apply is_nl_isspace in Hc. split; [now constructor | now inversion 1]. }
    cbn [re_split_go]. destruct b.
    + destruct (is_nl c) eqn:Ec; [now apply Hnl | exact Hpush].
    + destruct (is_nl c && starts_nl rest) eqn:Ec; [|exact Hpush].
      apply andb_true_iff in Ec. destruct Ec as [Ec _].
      rewrite <- (Hnl Ec true). split.
      * now inversion 1.
      * intros H. constructor; [constructor | exact H].
Qed.

Lemma cleaned_paragraphs_nil_iff (text : str) :
  cleaned_paragraphs text = [] <-> allspace text.
Proof.
  rewrite <- (re_split_go_allspace text false).
  unfold cleaned_paragraphs, re_split.
  induction (re_split_go false text) as [|p ps IH]; cbn [filter map].
  - split; [constructor | reflexivity].
  - destruct (truthy (strip p)) eqn:E.
    + split; [discriminate|]. inversion 1 as [|? ? Hp _]; subst.
      apply strip_nil_iff in Hp. now rewrite Hp in E.
    + rewrite IH. assert (Hp : allspace p).
      { apply strip_nil_iff. now destruct (strip p). }
      split; [now constructor | now inversion 1].
Qed.


(** ** The packing is greedy *)

Lemma pack_loop_tight (s : Z) (ps : list str) :
  forall chunks p g,
  Forall para_ok (p :: g ++ ps) ->
  packs s p g = true ->
  exists more groups,
    flush (fold_left (pack s) ps (chunks, join SEP (p :: g)))
    = chunks ++ map (join SEP) ((p :: g ++ more) :: groups)
    /\ tight s ((p :: g ++ more) :: groups)
    /\ groups_ok ((p :: g ++ more) :: groups).
Proof.
  unfold groups_ok.
  induction ps as [|q ps IH]; intros chunks p g Hall Hpk.
  - rewrite app_nil_r in Hall.
    pose proof (stripped_join p g (para_ok_stripped _ Hall)) as Hj.
    exists [], []. rewrite app_nil_r. cbn [fold_left flush].
    rewrite (stripped_truthy _ Hj), (stripped_strip _ Hj).
    split; [reflexivity|]. split; [now cbn|].
    constructor; [|constructor]. split; [discriminate | exact Hall].
  - change (p :: g ++ q :: ps) with ((p :: g) ++ q :: ps) in Hall.
    apply Forall_app in Hall. destruct Hall as [Hpg Hqps].
    pose proof (stripped_join p g (para_ok_stripped _ Hpg)) as Hj.
    cbn [fold_left].
    destruct (Z_gt_le_dec (len (join SEP (p :: g)) + len q + 2) s) as [Hgt|Hle].
    + rewrite pack_overflow by assumption.
      destruct (IH (chunks ++ [join SEP (p :: g)]) q [] Hqps eq_refl)
        as (more & groups & E & Ht & Hok).
      exists [], ((q :: more) :: groups). rewrite app_nil_r.
      change (join SEP [q]) with q in E. cbn [app] in E, Ht, Hok. rewrite E.
      split; [cbn [map]; now rewrite <- app_assoc|].
      split.
      * cbn [tight]. split; [lia|]. exact Ht.
      * constructor; [|exact Hok]. split; [discriminate | exact Hpg].
    + rewrite pack_append by assumption.
      rewrite <- join_snoc by discriminate.
      destruct (IH chunks p (g ++ [q])) as (more & groups & E & Ht & Hok).
      * rewrite <- app_assoc. change (Forall para_ok ((p :: g) ++ q :: ps)).
        apply Forall_app. split; assumption.
      * rewrite packs_snoc, Hpk. now apply Z.leb_le.
      * exists (q :: more), groups.
        rewrite <- app_assoc in E, Ht, Hok. cbn [app] in E, Ht, Hok.
        split; [exact E|]. split; [exact Ht | exact Hok].
Qed.

Lemma chunks_tight (text : str) (s : Z) :
  exists groups,
    split_document_into_chunks text s = map (join SEP) groups
    /\ tight s groups /\ groups_ok groups.
Proof.
  rewrite split_via_cleaned.
  pose proof (cleaned_paragraphs_ok text) as Hok.
  destruct (cleaned_paragraphs text) as [|q ps].
  - exists []. cbn. repeat split; constructor.
  - cbn [fold_left]. rewrite pack_first.
    destruct (pack_loop_tight s ps [] q [] Hok eq_refl)
      as (more & groups & E & Ht & Hgok).
    exists ((q :: more) :: groups). cbn [app] in *.
    split; [exact E|]. split; [exact Ht | exact Hgok].
Qed.

Lemma tight_app_inv (s : Z) (G1 : list (list str)) :
  forall g1 g2 G2,
  tight s (G1 ++ g1 :: g2 :: G2) ->
  match g2 with
  | p :: _ => s < len (join SEP g1) + len p + 2
  | [] => True
  end.
Proof.
  induction G1 as [|g G1 IH]; intros g1 g2 G2 H.
  - cbn [app tight] in H. destruct H as [H _]. now destruct g2.
  - cbn [app] in H. destruct H as [_ H]. now apply IH with G2.
Qed.

(* ================================================================== *)
(** * Slices of a fixed size *)

Lemma v9_chunk_text_slices (text : str) (n : nat) :
  V9.chunk_text text n = slices text n.
Proof. reflexivity. Qed.

Lemma v11_split_slices (text : str) (n : nat) :
  V11.split_document_into_chunks text n = slices text n.
Proof. reflexivity. Qed.

Lemma slices_nil (n : nat) : (0 < n)%nat -> slices [] n = [].
Proof.
  intros Hn. unfold slices. cbn [List.length].
  rewrite Nat.div_small by lia. reflexivity.
Qed.

Lemma slices_count (L n : nat) :
  (0 < n)%nat -> (0 < L)%nat ->
  ((L + n - 1) / n = S ((L - n + n - 1) / n))%nat.
Proof.
  intros Hn HL.
  replace (L + n - 1)%nat with ((L - 1) + 1 * n)%nat by lia.
  rewrite Nat.div_add by lia.
  destruct (Nat.le_gt_cases n L) as [Hle|Hgt].
  - replace (L - n + n - 1)%nat with (L - 1)%nat by lia. lia.
  - replace (L - n + n - 1)%nat with (n - 1)%nat by lia.
    rewrite !Nat.div_small by lia. lia.
Qed.

Lemma slices_cons (text : str) (n : nat) :
  (0 < n)%nat -> text <> [] ->
  slices text n = firstn n text :: slices (skipn n text) n.
Proof.
  intros Hn Ht. unfold slices.
  assert (HL : (0 < List.length text)%nat) by (destruct text; [congruence | simpl; lia]).
  rewrite (slices_count (List.length text) n Hn HL), length_skipn.
  cbn [seq map]. rewrite skipn_O. f_equal.
  rewrite <- seq_shift, !map_map. apply map_ext. intros k.
  rewrite skipn_skipn. f_equal. f_equal. lia.
Qed.

(** Induction on a text, slice after slice. *)
Lemma slices_ind (n : nat) (P : str -> Prop) :
  (0 < n)%nat ->
  P [] ->
  (forall text, text <> [] -> P (skipn n text) -> P text) ->
  forall text, P text.
Proof.
  intros Hn Hnil Hstep text.
  remember (List.length text) as L eqn:EL. revert text EL.
  induction L as [L IH] using lt_wf_ind. intros text EL.
  destruct text as [|c text]; [exact Hnil|].
  apply Hstep; [discriminate|].
  apply (IH (List.length (skipn n (c :: text)))); [|reflexivity].
  rewrite length_skipn. subst L. cbn [List.length]. lia.
Qed.

Lemma slices_concat (n : nat) (text : str) :
  (0 < n)%nat -> concat (slices text n) = text.
Proof.
  intros Hn. revert text.
  apply (slices_ind n (fun text => concat (slices text n) = text) Hn).
  - now rewrite slices_nil.
  - intros text Ht IH. rewrite slices_cons by assumption. cbn [concat].
    rewrite IH. apply firstn_skipn.
Qed.

Lemma slices_sizes (n : nat) (text : str) :
  (0 < n)%nat -> slice_sizes n (slices text n).
Proof.
  intros Hn. revert text.
  apply (slices_ind n (fun text => slice_sizes n (slices text n)) Hn).
  - now rewrite slices_nil.
  - intros text Ht IH. rewrite slices_cons by assumption.
    assert (HL : (0 < List.length text)%nat)
      by (destruct text; [congruence | simpl; lia]).
    destruct (skipn n text) as [|d rest] eqn:E.
    + rewrite slices_nil by assumption. cbn [slice_sizes].
      rewrite length_firstn. lia.
    + rewrite <- E in *. assert (Hlen : (n < List.length text)%nat).
      { pose proof (length_skipn n text) as Hs. rewrite E in Hs at 1.
        simpl in Hs. lia. }
      destruct (slices (skipn n text) n) as [|c2 more] eqn:Es.
      * rewrite slices_cons in Es by (assumption || (rewrite E; discriminate)).
        discriminate.
      * cbn [slice_sizes]. split; [|exact IH]. rewrite length_firstn. lia.
Qed.

(* ================================================================== *)
(** * The retry loop of [v9docsumvim.py], for any client *)

Lemma sleeps_after {cl A} (pre : list event)
    (run : outcome A * world cl * list event) :
  sleeps (trace (after pre run)) = sleeps pre ++ sleeps (trace run).
Proof. unfold after. cbn [trace snd]. apply sleeps_app. Qed.

Section V9Step.
Variable cl : Client.
Variables (fuel : nat) (attempts : Z) (chunk : str) (w w1 : world cl).
Hypothesis Hlt : attempts < V9.RETRY_LIMIT.

Lemma v9_step_success chat :
  create cl w V9.SUMMARY_PROMPT chunk = (inr chat, w1) ->
  V9.while_attempts cl (S fuel) attempts chunk w
  = (Returned (content chat), w1, [EvCreate chunk (inr chat)]).
Proof.
  intros E. cbn [V9.while_attempts].
  destruct (Z.ltb_spec attempts V9.RETRY_LIMIT); [|lia].
  unfold try_except, bind, chat_completions_create, ret. now rewrite E.
Qed.

Lemma v9_step_retry e :
  create cl w V9.SUMMARY_PROMPT chunk = (inl e, w1) ->
  V9.caught e = true ->
  V9.while_attempts cl (S fuel) attempts chunk w
  = after [EvCreate chunk (inl e); EvAttemptFailed (attempts + 1) e;
           EvSleep V9.RETRY_DELAY]
      (V9.while_attempts cl fuel (attempts + 1) chunk
         (sleep cl w1 V9.RETRY_DELAY)).
Proof.
  intros E He. cbn [V9.while_attempts].
  destruct (Z.ltb_spec attempts V9.RETRY_LIMIT); [|lia].
  unfold try_except, bind, chat_completions_create, emit, time_sleep, after,
    result, final_world, trace.
  rewrite E.
  destruct e; try discriminate;
    now destruct (V9.while_attempts cl fuel (attempts + 1) chunk _) as [[o w2] tr2].
Qed.

Lemma v9_step_propagate e :
  create cl w V9.SUMMARY_PROMPT chunk = (inl e, w1) ->
  V9.caught e = false ->
  V9.while_attempts cl (S fuel) attempts chunk w
  = (Raised e, w1, [EvCreate chunk (inl e)]).
Proof.
  intros E He. cbn [V9.while_attempts].
  destruct (Z.ltb_spec attempts V9.RETRY_LIMIT); [|lia].
  unfold try_except, bind, chat_completions_create, raise.
  rewrite E. destruct e; try discriminate; now rewrite app_nil_r.
Qed.

End V9Step.

(** What a run of the loop looks like when [fuel] is the number of
    attempts left: [k] requests of the chunk, and one of three ends. *)
Lemma v9_while_attempts_run (cl : Client) (chunk : str) :
  forall fuel attempts w,
  0 <= attempts -> attempts + Z.of_nat fuel = V9.RETRY_LIMIT ->
  let run := V9.while_attempts cl fuel attempts chunk w in
  exists k, (k <= fuel)%nat /\ requests (trace run) = repeat chunk k /\
    ((exists chat tr0,
        result run = Returned (content chat)
        /\ trace run = tr0 ++ [EvCreate chunk (inr chat)]
        /\ sleeps (trace run) = repeat V9.RETRY_DELAY (k - 1) /\ (1 <= k)%nat)
     \/ (exists e tr0,
           result run = Raised e /\ V9.caught e = false
           /\ trace run = tr0 ++ [EvCreate chunk (inl e)]
           /\ sleeps (trace run) = repeat V9.RETRY_DELAY (k - 1) /\ (1 <= k)%nat)
     \/ (result run = Raised V9.FAILED /\ k = fuel
         /\ sleeps (trace run) = repeat V9.RETRY_DELAY k)).
Proof.
  induction fuel as [|fuel IH]; intros attempts w Ha Hsum run.
  - exists 0%nat. subst run. cbn [V9.while_attempts].
    destruct (Z.ltb_spec attempts V9.RETRY_LIMIT); [lia|].
    split; [lia|]. split; [reflexivity|]. right; right. now repeat split.
  - assert (Hlt : attempts < V9.RETRY_LIMIT) by lia.
    destruct (create cl w V9.SUMMARY_PROMPT chunk) as [[e|chat] w1] eqn:E.
    + destruct (V9.caught e) eqn:He.
      * subst run.
        rewrite (v9_step_retry cl fuel attempts chunk w w1 Hlt e E He).
        destruct (IH (attempts + 1) (sleep cl w1 V9.RETRY_DELAY))
          as (k & Hk & Hreq & Hend); [lia | lia |].
        cbv zeta in Hreq, Hend.
        set (inner := V9.while_attempts cl fuel (attempts + 1) chunk
                        (sleep cl w1 V9.RETRY_DELAY)) in *.
        exists (S k). split; [lia|]. rewrite requests_after, sleeps_after.
        split; [cbn; now rewrite Hreq|].
        destruct Hend as [(chat & tr0 & Hres & Htr & Hsl & Hk1)
                         | [(e' & tr0 & Hres & Hc & Htr & Hsl & Hk1)
                           | (Hres & -> & Hsl)]].
        -- left. exists chat. eexists. split; [exact Hres|].
           split; [unfold after; cbn [trace snd]; rewrite Htr;
                   now rewrite app_assoc|].
           split; [|lia]. rewrite Hsl. cbn.
           replace (k - 0)%nat with (S (k - 1)) by lia. reflexivity.
        -- right; left. exists e'. eexists. split; [exact Hres|].
           split; [exact Hc|].
           split; [unfold after; cbn [trace snd]; rewrite Htr;
                   now rewrite app_assoc|].
           split; [|lia]. rewrite Hsl. cbn.
           replace (k - 0)%nat with (S (k - 1)) by lia. reflexivity.
        -- right; right. split; [exact Hres|]. split; [reflexivity|].
           rewrite Hsl. reflexivity.
      * subst run.
        rewrite (v9_step_propagate cl fuel attempts chunk w w1 Hlt e E He).
        exists 1%nat. split; [lia|]. split; [reflexivity|].
        right; left. exists e, []. now repeat split.
    + subst run.
      rewrite (v9_step_success cl fuel attempts chunk w w1 Hlt chat E).
      exists 1%nat. split; [lia|]. split; [reflexivity|].
      left. exists chat, []. now repeat split.
Qed.

(** ** The loops over chunks of [v9docsumvim.py] and [v11docsumvim.py] *)

Lemma v9_summarize_chunk_answer (cl : Client) (chunk : str) (w w1 : world cl) chat :
  create cl w V9.SUMMARY_PROMPT chunk = (inr chat, w1) ->
  V9.summarize_chunk cl chunk w
  = (Returned (content chat), w1, [EvCreate chunk (inr chat)]).
Proof.
  intros E. unfold V9.summarize_chunk.
  change (Z.to_nat V9.RETRY_LIMIT) with 3%nat.
  now apply v9_step_success.
Qed.

Lemma v9_summarize_each_answers (cl : Client) (f : str -> str) :
  (forall w text, exists w1,
      create cl w V9.SUMMARY_PROMPT text = (inr {| content := f text |}, w1)) ->
  forall chunks acc w, exists w' tr,
    V9.summarize_each cl chunks acc w = (Returned (acc ++ map f chunks), w', tr)
    /\ requests tr = chunks.
Proof.
  intros Hans. induction chunks as [|chunk chunks IH]; intros acc w.
  - exists w, []. cbn. now rewrite app_nil_r.
  - destruct (Hans w chunk) as (w1 & E).
    destruct (IH (acc ++ [f chunk]) w1) as (w' & tr & El & Hreq).
    cbn [V9.summarize_each].
    rewrite (bind_run _ _ _ _ _ _ (v9_summarize_chunk_answer cl chunk w w1 _ E)).
    cbn [content]. rewrite El. unfold after. cbn.
    exists w', (EvCreate chunk (inr {| content := f chunk |}) :: tr).
    split; [now rewrite <- app_assoc | cbn; now rewrite Hreq].
Qed.

Lemma v11_summarize_all_run (cl : Client) :
  forall chunks acc w,
  let run := V11.summarize_all (cl := cl) chunks acc w in
  match result run with
  | Returned sums =>
      requests (trace run) = chunks
      /\ exists new, sums = acc ++ new /\ List.length new = List.length chunks
  | Raised e =>
      exists done chunk rest tr0,
        chunks = done ++ chunk :: rest
        /\ requests (trace run) = done ++ [chunk]
        /\ trace run = tr0 ++ [EvCreate chunk (inl e)]
  | OutOfFuel => False
  end.
Proof.
  induction chunks as [|chunk chunks IH]; intros acc w run.
  - subst run. cbn. split; [reflexivity|]. exists []. now rewrite app_nil_r.
  - subst run. cbn [V11.summarize_all].
    destruct (create cl w V11.SYSTEM_PROMPT chunk) as [[e|chat] w1] eqn:E.
    + assert (Ec : chat_completions_create (cl := cl) V11.SYSTEM_PROMPT chunk w
                   = (Raised e, w1, [EvCreate chunk (inl e)])).
      { unfold chat_completions_create. now rewrite E. }
      rewrite (bind_raised _ _ _ _ _ _ Ec). cbn.
      exists [], chunk, chunks, []. now repeat split.
    + assert (Ec : chat_completions_create (cl := cl) V11.SYSTEM_PROMPT chunk w
                   = (Returned chat, w1, [EvCreate chunk (inr chat)])).
      { unfold chat_completions_create. now rewrite E. }
      rewrite (bind_run _ _ _ _ _ _ Ec).
      specialize (IH (acc ++ [content chat]) w1). cbv zeta in IH.
      destruct (V11.summarize_all chunks (acc ++ [content chat]) w1)
        as [[[sums|e|] w2] tr2]; unfold after; cbn in IH |- *.
      * destruct IH as [Hreq (new & -> & Hlen)]. split; [now rewrite Hreq|].
        exists (content chat :: new). rewrite <- app_assoc. cbn.
        split; [reflexivity | now rewrite Hlen].
      * destruct IH as (done & c & rest & tr0 & -> & Hreq & ->).
        exists (chunk :: done), c, rest, (EvCreate chunk (inr chat) :: tr0).
        cbn. now rewrite Hreq.
      * exact IH.
Qed.

(* ================================================================== *)
(** * The chunker of [v2testdocsum.py] *)

Lemma v2_size (g : list str) :
  g <> [] ->
  V2.sum_len g + Z.of_nat (List.length g) * 2 = len (join SEP g) + 2.
Proof.
  induction g as [|p g IH]; [congruence|]. intros _.
  destruct g as [|q g].
  - cbn [V2.sum_len map fold_right List.length join]. lia.
  - rewrite join_cons by discriminate. rewrite !len_app, len_SEP.
    specialize (IH ltac:(discriminate)).
    change (V2.sum_len (p :: q :: g)) with (len p + V2.sum_len (q :: g)).
    change (List.length (p :: q :: g)) with (S (List.length (q :: g))).
    lia.
Qed.

Lemma pack_prefix (s : Z) (pre : list str) (ps : list str) :
  forall chunks cur,
  flush (fold_left (pack s) ps (pre ++ chunks, cur))
  = pre ++ flush (fold_left (pack s) ps (chunks, cur)).
Proof.
  induction ps as [|q ps IH]; intros chunks cur.
  - cbn [fold_left flush]. destruct (truthy cur); [now rewrite app_assoc | reflexivity].
  - cbn [fold_left]. unfold pack at 2 4.
    destruct (len cur + len q + 2 >? s).
    + destruct (truthy cur); [rewrite <- app_assoc|]; apply IH.
    + apply IH.
Qed.

Lemma v2_pack_loop (s : Z) (ps : list str) :
  forall chunks g, g <> [] -> Forall stripped (g ++ ps) ->
  V2.flush (fold_left (V2.pack s) ps (chunks, g))
  = flush (fold_left (pack s) ps (chunks, join SEP g)).
Proof.
  induction ps as [|q ps IH]; intros chunks g Hn Hall.
  - rewrite app_nil_r in Hall. destruct g as [|p g]; [congruence|].
    pose proof (stripped_join p g Hall) as Hj. cbn [fold_left V2.flush flush].
    now rewrite (stripped_truthy _ Hj).
  - apply Forall_app in Hall. destruct Hall as [Hg Hqps].
    destruct g as [|p g]; [congruence|].
    pose proof (stripped_join p g Hg) as Hj.
    cbn [fold_left]. unfold V2.pack at 2.
    replace (V2.sum_len (p :: g) + len q + Z.of_nat (List.length (p :: g)) * 2)
      with (len (join SEP (p :: g)) + len q + 2)
      by (pose proof (v2_size (p :: g) Hn); lia).
    destruct (Z_gt_le_dec (len (join SEP (p :: g)) + len q + 2) s) as [Hgt|Hle].
    + rewrite pack_overflow by assumption.
      destruct (Z.gtb_spec (len (join SEP (p :: g)) + len q + 2) s); [|lia].
      rewrite (stripped_strip _ Hj).
      rewrite IH by (discriminate || assumption). reflexivity.
    + rewrite pack_append by assumption.
      destruct (Z.gtb_spec (len (join SEP (p :: g)) + len q + 2) s); [lia|].
      rewrite IH.
      * now rewrite join_snoc by discriminate.
      * now destruct g.
      * rewrite <- app_assoc. apply Forall_app. split; assumption.
Qed.

(** The chunks of [chunk_text_by_size] are the chunks of
    [split_document_into_chunks], after an empty chunk when the first
    paragraph is longer than the bound. *)
Lemma v2_chunks_relation (text : str) (s : Z) :
  V2.chunk_text_by_size text s
  = match cleaned_paragraphs text with
    | p :: _ => if len p >? s then [[]] else []
    | [] => []
    end ++ split_document_into_chunks text s.
Proof.
  rewrite split_via_cleaned. unfold V2.chunk_text_by_size.
  destruct text as [|c text]; [reflexivity|]. cbn [truthy negb].
  pose proof (para_ok_stripped _ (cleaned_paragraphs_ok (c :: text))) as Hok.
  destruct (cleaned_paragraphs (c :: text)) as [|q ps]; [reflexivity|].
  cbn [fold_left]. rewrite pack_first.
  assert (E0 : V2.pack s ([], []) q
               = ((if len q >? s then [[]] else []) ++ [], [q])).
  { unfold V2.pack.
    replace (V2.sum_len [] + len q + Z.of_nat (List.length (@nil str)) * 2)
      with (len q) by (cbn; lia).
    now destruct (len q >? s). }
  rewrite E0, v2_pack_loop by (discriminate || assumption).
  change (join SEP [q]) with q. apply pack_prefix.
Qed.

(* ================================================================== *)
(** * Further facts about the query engines *)

Lemma bind_trace_prefix {cl A B} (m : M cl A) (k : A -> M cl B) (w : world cl) :
  exists tl, trace (bind m k w) = trace (m w) ++ tl.
Proof.
  unfold bind. destruct (m w) as [[[a|e|] w1] tr1].
  - destruct (k a w1) as [[o w2] tr2]. now exists tr2.
  - exists []. cbn. now rewrite app_nil_r.
  - exists []. cbn. now rewrite app_nil_r.
Qed.

Lemma try_except_trace_prefix {cl A} (m : M cl A) (h : exn -> M cl A)
    (w : world cl) :
  exists tl, trace (try_except m h w) = trace (m w) ++ tl.
Proof.
  unfold try_except. destruct (m w) as [[[a|e|] w1] tr1].
  - exists []. cbn. now rewrite app_nil_r.
  - destruct (h e w1) as [[o w2] tr2]. now exists tr2.
  - exists []. cbn. now rewrite app_nil_r.
Qed.

(** The subdivision step of [perform_groq_query]. *)
Lemma v2_perform_subdivide (cl : Client) (fuel : nat) (text : str) (delay : Z)
    (w w1 : world cl) (e : exn) :
  create cl w V2.SYSTEM_PROMPT text = (inl e, w1) ->
  oversize e = true ->
  V2.perform_groq_query cl (S fuel) text delay w
  = after [EvCreate text (inl e)]
      ((summarized_chunks <-
          summarize_chunks
            (fun chunk => V2.perform_groq_query cl fuel chunk default_delay)
            (V2.chunk_text_by_size text default_max_chunk_size) [] ;;
        V2.perform_groq_query cl fuel (join (lit " ") summarized_chunks)
          default_delay) w1).
Proof.
  intros H He. cbn [V2.perform_groq_query].
  unfold try_except, chat_completions_create. rewrite H.
  assert (E : forall k : M cl ChatCompletion,
             (let '(o, w2, tr2) := k w1 in
              (o, w2, [EvCreate text (inl e)] ++ tr2))
             = after [EvCreate text (inl e)] (k w1)).
  { intros k. unfold after, result, final_world, trace.
    now destruct (k w1) as [[o w2] tr2]. }
  destruct e; try discriminate; cbn [oversize] in He;
    apply negb_true_iff in He; rewrite He; apply E.
Qed.

(** The first event of a call is the request of its text. *)
Lemma v2_perform_first_request (cl : Client) (fuel : nat) (text : str)
    (delay : Z) (w : world cl) :
  exists r tl,
    trace (V2.perform_groq_query cl (S fuel) text delay w)
    = EvCreate text r :: tl.
Proof.
  cbn [V2.perform_groq_query].
  destruct (try_except_trace_prefix
              (chat_completions_create (cl := cl) V2.SYSTEM_PROMPT text)
              (fun e =>
                 match e with
                 | InternalServerError _ =>
                     time_sleep delay ;;;
                     V2.perform_groq_query cl fuel text default_delay
                 | RateLimitError msg | BadRequestError msg =>
                     if contains (lit "RMP") msg then
                       time_sleep delay ;;;
                       V2.perform_groq_query cl fuel text default_delay
                     else
                       summarized_chunks <-
                         summarize_chunks
                           (fun chunk =>
                              V2.perform_groq_query cl fuel chunk default_delay)
                           (V2.chunk_text_by_size text default_max_chunk_size)
                           [] ;;
                       V2.perform_groq_query cl fuel
                         (join (lit " ") summarized_chunks) default_delay
                 | _ => raise e
                 end) w) as (tl & ->).
  unfold chat_completions_create.
  destruct (create cl w V2.SYSTEM_PROMPT text) as [r w1]. now exists r, tl.
Qed.

(** ** A text of small paragraphs, rejected once *)

Lemma rejects_over_accepts (limit : Z) (answer text : str) (fuel : nat) (delay : Z) :
  len text <= limit ->
  groq_query (rejects_over limit answer) (S fuel) text delay tt
  = (Returned {| content := answer |}, tt,
     [EvCreate text (inr {| content := answer |})]).
Proof.
  intros H. apply groq_query_success. cbn [create rejects_over].
  destruct (Z.gtb_spec (len text) limit); [lia | reflexivity].
Qed.

Lemma rejects_over_summarize_chunks (limit : Z) (answer : str) (fuel : nat)
    (chunks : list str) :
  Forall (fun c => len c <= limit) chunks ->
  forall acc, exists tr,
    summarize_chunks
      (fun chunk => groq_query (rejects_over limit answer) (S fuel) chunk
                      default_delay)
      chunks acc tt
    = (Returned (acc ++ repeat answer (List.length chunks)), tt, tr)
    /\ requests tr = chunks /\ sleeps tr = [].
Proof.
  induction 1 as [|c chunks Hc _ IH]; intros acc.
  - exists []. cbn. now rewrite app_nil_r.
  - cbn [summarize_chunks].
    rewrite (bind_run _ _ _ _ _ _
               (rejects_over_accepts limit answer c fuel default_delay Hc)).
    cbn [content]. destruct (IH (acc ++ [answer])) as (tr & E & Hreq & Hsl).
    rewrite E. unfold after. cbn [result final_world trace fst snd app].
    exists (EvCreate c (inr {| content := answer |}) :: tr).
    split; [now rewrite <- app_assoc|]. cbn. now rewrite Hreq, Hsl.
Qed.

Lemma chunks_within (text : str) (s limit : Z) :
  s <= limit ->
  (forall p, In p (cleaned_paragraphs text) -> len p <= limit) ->
  Forall (fun c => len c <= limit) (split_document_into_chunks text s).
Proof.
  intros Hs Hp. destruct (chunks_groups text s) as (groups & -> & Hc & Hg).
  apply Forall_forall. intros c Hin. apply in_map_iff in Hin.
  destruct Hin as (g & <- & Hin). rewrite Forall_forall in Hg.
  destruct (good_group_cases s g (Hg g Hin)) as [[p ->] | [Hle _]]; [|lia].
  cbn [join]. apply Hp. rewrite <- Hc. apply in_concat.
  exists [p]. split; [exact Hin | now left].
Qed.

(** ** A service that refuses every request for its volume *)

Lemma always_oversize_never_waits (cl : Client) :
  always_oversize cl SYSTEM_PROMPT ->
  forall fuel text delay w,
    result (groq_query cl fuel text delay w) = OutOfFuel
    /\ sleeps (trace (groq_query cl fuel text delay w)) = [].
Proof.
  intros Hrej. induction fuel as [|fuel IH]; intros text delay w; [now split|].
  destruct (Hrej w text) as (e & w1 & E & Ho).
  rewrite (groq_query_subdivide cl fuel _ delay w w1 e E Ho).
  rewrite sleeps_after. cbn [sleeps app].
  destruct (split_document_into_chunks text default_max_chunk_size)
    as [|chunk chunks].
  - cbn [summarize_chunks].
    assert (Eret : ret (cl := cl) (@nil str) w1 = (Returned [], w1, []))
      by reflexivity.
    rewrite (bind_run _ _ _ _ _ _ Eret).
    destruct (IH (join (lit " ") []) default_delay w1) as [Hres Hsl].
    unfold after. cbn [result trace fst snd app]. now split.
  - cbn [summarize_chunks].
    destruct (IH chunk default_delay w1) as [Hres Hsl].
    destruct (groq_query cl fuel chunk default_delay w1) as [[o w2] tr2] eqn:Eq.
    cbn in Hres, Hsl. subst o.
    rewrite (bind_out_of_fuel _ _ _ _ _ (bind_out_of_fuel _ _ _ _ _ Eq)).
    now split.
Qed.

(** ** A larger budget changes nothing for a run that ends *)

Lemma summarize_chunks_more_fuel {cl} (q q' : str -> M cl ChatCompletion) :
  (forall chunk w o w' tr,
      q chunk w = (o, w', tr) -> o <> OutOfFuel -> q' chunk w = (o, w', tr)) ->
  forall chunks acc w o w' tr,
    summarize_chunks q chunks acc w = (o, w', tr) -> o <> OutOfFuel ->
    summarize_chunks q' chunks acc w = (o, w', tr).
Proof.
  intros Hq. induction chunks as [|chunk chunks IH]; intros acc w o w' tr H Ho.
  - exact H.
  - cbn [summarize_chunks] in *.
    destruct (q chunk w) as [[[chat|e|] w1] tr1] eqn:E.
    + rewrite (bind_run _ _ _ _ _ _ E) in H.
      rewrite (bind_run _ _ _ _ _ _
                 (Hq _ _ _ _ _ E ltac:(discriminate))).
      destruct (summarize_chunks q chunks (acc ++ [content chat]) w1)
        as [[o2 w2] tr2] eqn:E2.
      unfold after in H. cbn in H. inversion H; subst.
      now rewrite (IH _ _ _ _ _ E2 Ho).
    + rewrite (bind_raised _ _ _ _ _ _ E) in H.
      now rewrite (bind_raised _ _ _ _ _ _
                     (Hq _ _ _ _ _ E ltac:(discriminate))).
    + rewrite (bind_out_of_fuel _ _ _ _ _ E) in H. inversion H; subst.
      congruence.
Qed.

Lemma after_ended {cl A} (pre : list event)
    (run : outcome A * world cl * list event) o w' tr :
  after pre run = (o, w', tr) ->
  exists tr1, run = (o, w', tr1) /\ tr = pre ++ tr1.
Proof.
  destruct run as [[o1 w1] tr1]. unfold after. cbn. intros H.
  inversion H; subst. now exists tr1.
Qed.

Lemma groq_query_more_fuel (cl : Client) (fuel : nat) :
  forall text delay w o w' tr,
    groq_query cl fuel text delay w = (o, w', tr) -> o <> OutOfFuel ->
    groq_query cl (S fuel) text delay w = (o, w', tr).
Proof.
  induction fuel as [|fuel IH]; intros text delay w o w' tr H Ho.
  - cbn in H. inversion H; subst. congruence.
  - destruct (create cl w SYSTEM_PROMPT text) as [[e|chat] w1] eqn:E.
    + destruct (exn_classes e) as [(Hh & _) | [(Hi & _) | [(Hf & _) | (Hov & _)]]].
      * rewrite (groq_query_propagate cl fuel _ delay w w1 e E Hh) in H.
        now rewrite (groq_query_propagate cl (S fuel) _ delay w w1 e E Hh).
      * rewrite (groq_query_retry cl fuel _ delay w w1 e E (or_introl Hi)) in H.
        rewrite (groq_query_retry cl (S fuel) _ delay w w1 e E (or_introl Hi)).
        apply after_ended in H. destruct H as (tr1 & H & ->).
        now rewrite (IH _ _ _ _ _ _ H Ho).
      * rewrite (groq_query_retry cl fuel _ delay w w1 e E (or_intror Hf)) in H.
        rewrite (groq_query_retry cl (S fuel) _ delay w w1 e E (or_intror Hf)).
        apply after_ended in H. destruct H as (tr1 & H & ->).
        now rewrite (IH _ _ _ _ _ _ H Ho).
      * rewrite (groq_query_subdivide cl fuel _ delay w w1 e E Hov) in H.
        rewrite (groq_query_subdivide cl (S fuel) _ delay w w1 e E Hov).
        apply after_ended in H. destruct H as (tr1 & H & ->).
        pose proof (summarize_chunks_more_fuel
                      (fun chunk => groq_query cl fuel chunk default_delay)
                      (fun chunk => groq_query cl (S fuel) chunk default_delay)
                      (fun chunk w0 => IH chunk default_delay w0)) as Hloop.
        destruct (summarize_chunks
                    (fun chunk => groq_query cl fuel chunk default_delay)
                    (split_document_into_chunks text default_max_chunk_size)
                    [] w1) as [[[sums|e'|] w2] tr2] eqn:El.
        -- rewrite (bind_run _ _ _ _ _ _ El) in H.
           rewrite (bind_run _ _ _ _ _ _
                      (Hloop _ _ _ _ _ _ El ltac:(discriminate))).
           apply after_ended in H. destruct H as (tr3 & H & ->).
           now rewrite (IH _ _ _ _ _ _ H Ho).
        -- rewrite (bind_raised _ _ _ _ _ _ El) in H. inversion H; subst.
           now rewrite (bind_raised _ _ _ _ _ _
                          (Hloop _ _ _ _ _ _ El ltac:(discriminate))).
        -- rewrite (bind_out_of_fuel _ _ _ _ _ El) in H. inversion H; subst.
           congruence.
    + rewrite (groq_query_success cl fuel _ delay w w1 chat E) in H.
      now rewrite (groq_query_success cl (S fuel) _ delay w w1 chat E).
Qed.

(* ================================================================== *)
(** * Further properties of the chunker of [testdocsum.py] *)

(** X1: no chunk of [split_document_into_chunks] is empty, and none has
    white space at either end. *)
Theorem chunks_not_empty_and_stripped (text : str) (s : Z) :
  Forall (fun c => c <> [] /\ strip c = c) (split_document_into_chunks text s).
Proof.
  destruct (chunks_groups_ok text s) as (groups & -> & _ & Hg & Hok).
  apply Forall_forall. intros c Hc. apply in_map_iff in Hc.
  destruct Hc as (g & <- & Hin).
  rewrite Forall_forall in Hg, Hok.
  pose proof (group_chunk_stripped s g (Hg g Hin) (Hok g Hin)) as Hs.
  split; [apply Hs | now apply stripped_strip].
Qed.

(** X2: the cleaned paragraphs of the chunks, taken chunk after chunk, are
    the cleaned paragraphs of the document: chunking moves no paragraph,
    drops none and cuts none. *)
Theorem chunks_keep_paragraphs (text : str) (s : Z) :
  concat (map cleaned_paragraphs (split_document_into_chunks text s))
  = cleaned_paragraphs text.
Proof.
  destruct (chunks_groups_ok text s) as (groups & -> & <- & Hg & Hok).
  now apply cleaned_paragraphs_chunks with s.
Qed.

(** X3: the chunks joined by blank lines are a normal form of the document:
    chunked again with any bound [s'], they give the chunks of the document
    for [s']. *)
Theorem rechunk_joined_chunks (text : str) (s s' : Z) :
  split_document_into_chunks (join SEP (split_document_into_chunks text s)) s'
  = split_document_into_chunks text s'.
Proof.
  destruct (chunks_groups text s) as (groups & -> & Hc & Hg).
  rewrite join_concat, Hc.
  2:{ revert Hg. apply Forall_impl. intros g. apply good_group_nonempty. }
  rewrite !split_via_cleaned. f_equal. f_equal.
  destruct (cleaned_paragraphs text) as [|p ps] eqn:E; [reflexivity|].
  rewrite <- E. apply cleaned_paragraphs_join.
  - apply cleaned_paragraphs_ok.
  - rewrite E. discriminate.
Qed.

(** X4: the packing is greedy.  Of two chunks that follow each other, the
    first could not take the first paragraph of the second within the bound
    [s], and so the two could not be one chunk. *)
Theorem adjacent_chunks_cannot_merge (text : str) (s : Z)
    (before after_ : list str) (c1 c2 : str) :
  split_document_into_chunks text s = before ++ c1 :: c2 :: after_ ->
  s < len c1 + len (hd [] (cleaned_paragraphs c2)) + 2
  /\ s < len c1 + 2 + len c2.
Proof.
  destruct (chunks_tight text s) as (groups & -> & Ht & Hok). intros E.
  apply map_eq_app in E. destruct E as (G1 & G' & -> & _ & E).
  destruct G' as [|g1 [|g2 G2]]; try discriminate.
  cbn [map] in E. inversion E; subst.
  pose proof (tight_app_inv s G1 g1 g2 G2 Ht) as Hp.
  unfold groups_ok in Hok. apply Forall_app in Hok. destruct Hok as [_ Hok].
  inversion Hok as [|? ? _ Hok2]; subst.
  inversion Hok2 as [|? ? [Hn Hg2] _]; subst.
  rewrite cleaned_paragraphs_join by assumption.
  destruct g2 as [|p rest]; [congruence|]. cbn [hd].
  split; [exact Hp|].
  pose proof (len_join_head SEP p rest). lia.
Qed.

(** X5: a document whose cleaned paragraphs, joined by blank lines, fit in
    the bound is one chunk: these paragraphs joined. *)
Theorem fitting_document_is_one_chunk (text : str) (s : Z) :
  cleaned_paragraphs text <> [] ->
  len (join SEP (cleaned_paragraphs text)) <= s ->
  split_document_into_chunks text s = [join SEP (cleaned_paragraphs text)].
Proof.
  intros Hn Hfit. rewrite split_via_cleaned.
  pose proof (para_ok_stripped _ (cleaned_paragraphs_ok text)) as Hok.
  destruct (cleaned_paragraphs text) as [|p rest]; [congruence|].
  inversion Hok as [|? ? Hp Hrest]; subst.
  cbn [fold_left]. rewrite pack_first.
  rewrite pack_group_again by (assumption || now apply fits_packs).
  pose proof (stripped_join p rest Hok) as Hj. cbn [flush].
  now rewrite (stripped_truthy _ Hj), (stripped_strip _ Hj).
Qed.

(** X6: with a bound of 3 or less, zero and negative bounds included,
    nothing is packed and nothing fails: every cleaned paragraph is a chunk
    of its own. *)
Theorem small_bound_one_paragraph_per_chunk (text : str) (s : Z) :
  s <= 3 -> split_document_into_chunks text s = cleaned_paragraphs text.
Proof.
  intros Hs. rewrite split_via_cleaned.
  pose proof (para_ok_stripped _ (cleaned_paragraphs_ok text)) as Hok.
  destruct (cleaned_paragraphs text) as [|p rest]; [reflexivity|].
  cbn [fold_left]. rewrite pack_first. now rewrite pack_loop_singletons.
Qed.

(** X7: a document has no chunk exactly when it is empty or made of white
    space only. *)
Theorem no_chunk_iff_white_space (text : str) (s : Z) :
  split_document_into_chunks text s = [] <-> allspace text.
Proof.
  rewrite <- cleaned_paragraphs_nil_iff.
  destruct (chunks_groups text s) as (groups & -> & <- & Hg).
  rewrite <- (groups_nil_iff s groups Hg).
  destruct groups; cbn; split; congruence.
Qed.

Lemma adjacent_chunks_cannot_merge_witness :
  let text := para1 ++ SEP ++ para2 ++ SEP ++ para3 ++ SEP ++ para4 in
  60 < len (para1 ++ SEP ++ para2) + len (hd [] (cleaned_paragraphs para3)) + 2
  /\ 60 < len (para1 ++ SEP ++ para2) + 2 + len para3.
Proof.
  intros text.
  apply (adjacent_chunks_cannot_merge text 60 [] [para4]).
  vm_compute. reflexivity.
Defined.

Lemma fitting_document_is_one_chunk_witness :
  let text := lit "  one " ++ SEP ++ [NL] ++ lit "two" ++ SEP in
  split_document_into_chunks text 8 = [join SEP (cleaned_paragraphs text)].
Proof.
  intros text. apply fitting_document_is_one_chunk.
  - vm_compute. discriminate.
  - vm_compute. discriminate.
Defined.

Lemma small_bound_one_paragraph_per_chunk_witness :
  let text := para1 ++ SEP ++ para2 in
  split_document_into_chunks text (-1) = cleaned_paragraphs text.
Proof.
  intros text. apply small_bound_one_paragraph_per_chunk. lia.
Defined.

(* ================================================================== *)
(** * The slicing chunkers of [v9docsumvim.py] and [v11docsumvim.py] *)

(** X8: for a positive [chunk_size], the chunks of [chunk_text] put end to
    end are the text: slicing loses and adds nothing. *)
Theorem v9_chunk_text_lossless (text : str) (chunk_size : nat) :
  (0 < chunk_size)%nat -> concat (V9.chunk_text text chunk_size) = text.
Proof. intros H. rewrite v9_chunk_text_slices. now apply slices_concat. Qed.

(** X9: for a positive [chunk_size], [chunk_text] gives the number of
    chunks of [len(text) / chunk_size] rounded up; none of them is empty or
    longer than [chunk_size], and all but the last have [chunk_size]
    characters. *)
Theorem v9_chunk_text_sizes (text : str) (chunk_size : nat) :
  (0 < chunk_size)%nat ->
  slice_sizes chunk_size (V9.chunk_text text chunk_size)
  /\ List.length (V9.chunk_text text chunk_size)
     = ((List.length text + chunk_size - 1) / chunk_size)%nat.
Proof.
  intros H. rewrite v9_chunk_text_slices. split; [now apply slices_sizes|].
  unfold slices. now rewrite !length_map, length_seq.
Qed.

(** X10: for a positive [chunk_size], [split_document_into_chunks] of
    [old_code/v11docsumvim.py] slices the text without loss, in chunks that
    are not empty, of [chunk_size] characters but for the last, which may
    be shorter: no paragraph or word boundary is looked at. *)
Theorem v11_split_slices_text (text : str) (chunk_size : nat) :
  (0 < chunk_size)%nat ->
  concat (V11.split_document_into_chunks text chunk_size) = text
  /\ slice_sizes chunk_size (V11.split_document_into_chunks text chunk_size).
Proof.
  intros H. rewrite v11_split_slices.
  split; [now apply slices_concat | now apply slices_sizes].
Qed.

Lemma v9_chunk_text_lossless_witness :
  concat (V9.chunk_text (lit "abcdefg") 3) = lit "abcdefg".
Proof. apply v9_chunk_text_lossless. lia. Defined.

Lemma v9_chunk_text_sizes_witness :
  slice_sizes 3 (V9.chunk_text (lit "abcdefg") 3)
  /\ List.length (V9.chunk_text (lit "abcdefg") 3)
     = ((List.length (lit "abcdefg") + 3 - 1) / 3)%nat.
Proof. apply v9_chunk_text_sizes. lia. Defined.

Lemma v11_split_slices_text_witness :
  concat (V11.split_document_into_chunks (lit "abcdefg") 3) = lit "abcdefg"
  /\ slice_sizes 3 (V11.split_document_into_chunks (lit "abcdefg") 3).
Proof. apply v11_split_slices_text. lia. Defined.

(* ================================================================== *)
(** * The retry loop and the script of [v9docsumvim.py] *)

(** X11: for every client, [summarize_chunk] ends, by returning or by
    raising, after one request at least and [RETRY_LIMIT] at most, all of
    them for the same chunk. *)
Theorem v9_summarize_chunk_bounded (cl : Client) (chunk : str) (w : world cl) :
  let run := V9.summarize_chunk cl chunk w in
  result run <> OutOfFuel
  /\ exists k, (1 <= k <= Z.to_nat V9.RETRY_LIMIT)%nat
       /\ requests (trace run) = repeat chunk k.
Proof.
  intros run.
  destruct (v9_while_attempts_run cl chunk (Z.to_nat V9.RETRY_LIMIT) 0 w)
    as (k & Hk & Hreq & Hend); [lia | reflexivity |].
  fold (V9.summarize_chunk cl chunk w) in Hreq, Hend. fold run in Hreq, Hend.
  destruct Hend as [(chat & tr0 & Hres & _ & _ & Hk1)
                   | [(e' & tr0 & Hres & _ & _ & _ & Hk1) | (Hres & -> & _)]].
  - split; [congruence|]. exists k. now repeat split.
  - split; [congruence|]. exists k. now repeat split.
  - split; [congruence|]. exists (Z.to_nat V9.RETRY_LIMIT).
    split; [cbn; lia | exact Hreq].
Qed.

(** X12: [summarize_chunk] ends in one of three ways.  It returns the text
    of the answer to its last request; or it raises an exception of the
    client that is neither an internal-server nor a bad-request error (a
    rate-limit error is one), raised by its last request; or it raises its
    own exception, after [RETRY_LIMIT] requests and as many waits of
    [RETRY_DELAY] seconds, one of them after the last attempt. *)
Theorem v9_summarize_chunk_outcomes (cl : Client) (chunk : str) (w : world cl) :
  let run := V9.summarize_chunk cl chunk w in
  match result run with
  | Returned summary =>
      exists chat tr0,
        summary = content chat /\ trace run = tr0 ++ [EvCreate chunk (inr chat)]
  | Raised e =>
      (V9.caught e = false
       /\ exists tr0, trace run = tr0 ++ [EvCreate chunk (inl e)])
      \/ (e = V9.FAILED
          /\ requests (trace run) = repeat chunk (Z.to_nat V9.RETRY_LIMIT)
          /\ sleeps (trace run)
             = repeat V9.RETRY_DELAY (Z.to_nat V9.RETRY_LIMIT))
  | OutOfFuel => False
  end.
Proof.
  intros run.
  destruct (v9_while_attempts_run cl chunk (Z.to_nat V9.RETRY_LIMIT) 0 w)
    as (k & Hk & Hreq & Hend); [lia | reflexivity |].
  fold (V9.summarize_chunk cl chunk w) in Hreq, Hend. fold run in Hreq, Hend.
  destruct Hend as [(chat & tr0 & Hres & Htr & _)
                   | [(e' & tr0 & Hres & Hc & Htr & _) | (Hres & -> & Hsl)]];
    rewrite Hres.
  - now exists chat, tr0.
  - left. split; [exact Hc | now exists tr0].
  - right. split; [reflexivity|]. split; [exact Hreq | exact Hsl].
Qed.

(** X13: when the client answers every request, with a summary [f text]
    of the text requested, [process_file] requests every slice of
    [CHUNK_SIZE] characters of the file once and in order, then every slice
    of [FINAL_SUMMARY_CHUNK_SIZE] characters of the summaries joined by
    spaces, and prints the summaries of these last slices joined by spaces
    and stripped; an empty file makes no request at all. *)
Theorem v9_process_file_answers (cl : Client) (f : str -> str) (text : str)
    (w : world cl) :
  (forall w0 user, exists w1,
      create cl w0 V9.SUMMARY_PROMPT user = (inr {| content := f user |}, w1)) ->
  let chunks := V9.chunk_text text V9.CHUNK_SIZE in
  let finals :=
    V9.chunk_text (join (lit " ") (map f chunks)) V9.FINAL_SUMMARY_CHUNK_SIZE in
  let run := V9.process_file cl text w in
  result run = Returned (strip (join (lit " ") (map f finals)))
  /\ requests (trace run) = chunks ++ finals
  /\ (text = [] -> requests (trace run) = []).
Proof.
  intros Hans chunks finals run.
  destruct (v9_summarize_each_answers cl f Hans chunks [] w)
    as (w1 & tr1 & E1 & Hreq1).
  destruct (v9_summarize_each_answers cl f Hans finals [] w1)
    as (w2 & tr2 & E2 & Hreq2).
  cbn [app] in E1, E2.
  assert (Efinal : V9.summarize_final_chunks cl (map f chunks) w1
                   = (Returned (join (lit " ") (map f finals)), w2, tr2 ++ [])).
  { unfold V9.summarize_final_chunks. fold finals.
    now rewrite (bind_run _ _ _ _ _ _ E2). }
  assert (Erun : run = (Returned (strip (join (lit " ") (map f finals))), w2,
                        tr1 ++ (tr2 ++ []) ++ [])).
  { subst run. unfold V9.process_file. fold chunks.
    rewrite (bind_run _ _ _ _ _ _ E1), (bind_run _ _ _ _ _ _ Efinal).
    reflexivity. }
  rewrite Erun. cbn [result trace fst snd]. split; [reflexivity|].
  rewrite !app_nil_r, requests_app, Hreq1, Hreq2. split; [reflexivity|].
  intros Ht. subst finals chunks. rewrite Ht. reflexivity.
Qed.

Lemma v9_process_file_answers_witness :
  let cl := answers_with (lit " S ") in
  let run := V9.process_file cl (lit "some text") tt in
  result run = Returned (lit "S")
  /\ requests (trace run) = [lit "some text"; lit " S "].
Proof.
  intros cl run.
  destruct (v9_process_file_answers cl (fun _ => lit " S ") (lit "some text") tt)
    as (Hres & Hreq & _).
  - intros w0 user. now exists w0.
  - split; [exact Hres | exact Hreq].
Defined.

(** X14: when the service is unstable at every request, [process_file] on
    a file that is not empty gives up on the first chunk: it raises the
    exception of [summarize_chunk] after [RETRY_LIMIT] requests of the first
    [CHUNK_SIZE] characters, and no other chunk is requested. *)
Theorem v9_process_file_gives_up_on_first_chunk (cl : Client) (text : str)
    (w : world cl) :
  (forall w0 user, exists msg w1,
      create cl w0 V9.SUMMARY_PROMPT user = (inl (InternalServerError msg), w1)) ->
  text <> [] ->
  let run := V9.process_file cl text w in
  result run = Raised V9.FAILED
  /\ requests (trace run)
     = repeat (firstn V9.CHUNK_SIZE text) (Z.to_nat V9.RETRY_LIMIT).
Proof.
  intros Hun Ht run. subst run. unfold V9.process_file.
  rewrite v9_chunk_text_slices, slices_cons by (assumption || (cbv; lia)).
  cbn [V9.summarize_each].
  destruct (v9_while_attempts_unstable cl (firstn V9.CHUNK_SIZE text)
              (fun w0 => Hun w0 _) (Z.to_nat V9.RETRY_LIMIT) 0 w)
    as [Hres Hreq]; [lia | reflexivity |].
  fold (V9.summarize_chunk cl (firstn V9.CHUNK_SIZE text) w) in Hres, Hreq.
  destruct (V9.summarize_chunk cl (firstn V9.CHUNK_SIZE text) w)
    as [[o w1] tr1] eqn:E.
  cbn in Hres, Hreq. subst o.
  rewrite (bind_raised _ _ _ _ _ _ (bind_raised _ _ _ _ _ _ E)).
  split; [reflexivity | exact Hreq].
Qed.

Lemma v9_process_file_gives_up_on_first_chunk_witness :
  let run := V9.process_file always_unstable (lit "some text") tt in
  result run = Raised V9.FAILED
  /\ requests (trace run)
     = repeat (firstn V9.CHUNK_SIZE (lit "some text")) (Z.to_nat V9.RETRY_LIMIT).
Proof.
  apply (v9_process_file_gives_up_on_first_chunk always_unstable).
  - intros w0 user. now exists (lit "unstable"), w0.
  - discriminate.
Defined.

(* ================================================================== *)
(** * The script [old_code/v11docsumvim.py] *)

(** X15: the script of [v11docsumvim.py] never asks twice.  When it ends
    well it has requested every chunk once, in order, and prints the header
    followed by one summary for each chunk, joined by spaces; when a
    request fails, whatever the error, the script ends with this error, the
    chunks before have been requested once and the chunks after are never
    requested. *)
Theorem v11_main_one_request_per_chunk (cl : Client) (filename text : str)
    (w : world cl) :
  let chunks := V11.split_document_into_chunks text V11.default_chunk_size in
  let run := V11.main cl filename text w in
  match result run with
  | Returned final_summary =>
      requests (trace run) = chunks
      /\ exists summaries,
           List.length summaries = List.length chunks
           /\ final_summary
              = lit "This is a summary of the file '" ++ filename ++ lit "': "
                  ++ join (lit " ") summaries
  | Raised e =>
      exists done chunk rest tr0,
        chunks = done ++ chunk :: rest
        /\ requests (trace run) = done ++ [chunk]
        /\ trace run = tr0 ++ [EvCreate chunk (inl e)]
  | OutOfFuel => False
  end.
Proof.
  intros chunks run. subst run. unfold V11.main. fold chunks.
  pose proof (v11_summarize_all_run cl chunks [] w) as H. cbv zeta in H.
  destruct (V11.summarize_all chunks [] w) as [[[sums|e|] w1] tr1] eqn:E;
    cbn in H.
  - rewrite (bind_run _ _ _ _ _ _ E). unfold after, ret. cbn.
    destruct H as [Hreq (new & -> & Hlen)]. rewrite app_nil_r.
    split; [exact Hreq|]. exists new. now split.
  - rewrite (bind_raised _ _ _ _ _ _ E). cbn. exact H.
  - contradiction.
Qed.

(* ================================================================== *)
(** * The script [v2testdocsum.py] *)

(** X16: [chunk_text_by_size] gives the chunks of
    [split_document_into_chunks] of [testdocsum.py], but for one more chunk
    in front, an empty one, when the first cleaned paragraph is longer than
    the bound: its loop appends the buffer without testing that it holds a
    paragraph. *)
Theorem v2_chunker_adds_empty_first_chunk (text : str) (max_chunk_size : Z) :
  V2.chunk_text_by_size text max_chunk_size
  = match cleaned_paragraphs text with
    | p :: _ => if len p >? max_chunk_size then [[]] else []
    | [] => []
    end ++ split_document_into_chunks text max_chunk_size.
Proof. apply v2_chunks_relation. Qed.

(** X17: when [perform_groq_query] is refused a text for its volume and
    the first cleaned paragraph of the text has more than 4000 characters,
    its next request is for the empty text, the empty first chunk of
    [chunk_text_by_size]. *)
Theorem v2_long_first_paragraph_requests_empty_text (cl : Client) (fuel : nat)
    (text : str) (delay : Z) (w w1 : world cl) (e : exn) (p : str)
    (rest : list str) :
  create cl w V2.SYSTEM_PROMPT text = (inl e, w1) ->
  oversize e = true ->
  cleaned_paragraphs text = p :: rest ->
  default_max_chunk_size < len p ->
  exists later,
    requests (trace (V2.perform_groq_query cl (S (S fuel)) text delay w))
    = text :: [] :: later.
Proof.
  intros E Ho Hc Hp.
  rewrite (v2_perform_subdivide cl (S fuel) text delay w w1 e E Ho).
  rewrite v2_chunks_relation, Hc.
  destruct (Z.gtb_spec (len p) default_max_chunk_size); [|lia].
  cbn [app summarize_chunks].
  match goal with
  | |- context [trace (after _ (bind (bind ?m ?k1) ?k2 w1))] =>
      destruct (bind_trace_prefix (bind m k1) k2 w1) as (tl2 & E2);
      destruct (bind_trace_prefix m k1 w1) as (tl1 & E1)
  end.
  destruct (v2_perform_first_request cl fuel [] default_delay w1)
    as (r & tl & Efirst).
  rewrite requests_after, E2, E1, Efirst. cbn [requests app].
  eexists. rewrite <- !app_assoc. cbn [requests app]. reflexivity.
Qed.

Lemma v2_long_first_paragraph_requests_empty_text_witness :
  let cl := rejects_over 4000 (lit "ok") in
  exists later,
    requests (trace (V2.perform_groq_query cl 2 (letters 4001)
                       default_delay tt))
    = letters 4001 :: [] :: later.
Proof.
  intros cl.
  apply (v2_long_first_paragraph_requests_empty_text cl 0 (letters 4001)
           default_delay tt tt (BadRequestError (lit "Request too large"))
           (letters 4001) []).
  - vm_compute. reflexivity.
  - reflexivity.
  - vm_compute. reflexivity.
  - vm_compute. reflexivity.
Defined.

(* ================================================================== *)
(** * Further properties of [groq_query] *)

(** X18: subdivision succeeds at depth 2 on small paragraphs.  Against a
    service that takes [limit] characters at most, [limit] being at least
    the default chunk size, a text over the limit whose cleaned paragraphs
    are all within the limit is summarized with one request for the text,
    one for each chunk in order and one for the summaries joined by
    spaces, without any wait, provided that these joined summaries are
    within the limit too. *)
Theorem small_paragraphs_are_summarized (limit : Z) (answer text : str)
    (delay : Z) :
  default_max_chunk_size <= limit ->
  limit < len text ->
  (forall p, In p (cleaned_paragraphs text) -> len p <= limit) ->
  let chunks := split_document_into_chunks text default_max_chunk_size in
  let summarized_document := join (lit " ") (repeat answer (List.length chunks)) in
  len summarized_document <= limit ->
  let run := groq_query (rejects_over limit answer) 2 text delay tt in
  result run = Returned {| content := answer |}
  /\ requests (trace run) = text :: chunks ++ [summarized_document]
  /\ sleeps (trace run) = [].
Proof.
  intros Hlim Hbig Hpar chunks summarized_document Hjoin run.
  assert (E : create (rejects_over limit answer) tt SYSTEM_PROMPT text
              = (inl (BadRequestError (lit "Request too large")), tt)).
  { cbn [create rejects_over].
    destruct (Z.gtb_spec (len text) limit); [reflexivity | lia]. }
  subst run.
  rewrite (groq_query_subdivide (rejects_over limit answer) 1 text delay tt tt
             _ E eq_refl).
  fold chunks.
  destruct (rejects_over_summarize_chunks limit answer 0 chunks
              (chunks_within text _ limit Hlim Hpar) [])
    as (tr & El & Hreq & Hsl).
  cbn [app] in El. rewrite (bind_run _ _ _ _ _ _ El).
  fold summarized_document.
  rewrite (rejects_over_accepts limit answer summarized_document 0
             default_delay Hjoin).
  unfold after. cbn [result final_world trace fst snd app].
  split; [reflexivity|].
  cbn [requests sleeps]. rewrite requests_app, sleeps_app, Hreq, Hsl.
  split; reflexivity.
Qed.

Lemma small_paragraphs_are_summarized_witness :
  let text := letters 2001 ++ SEP ++ letters 2001 in
  let run := groq_query (rejects_over 4000 (lit "ok")) 2 text 7 tt in
  result run = Returned {| content := lit "ok" |}
  /\ requests (trace run)
     = text :: split_document_into_chunks text default_max_chunk_size
         ++ [join (lit " ")
               (repeat (lit "ok")
                  (List.length
                     (split_document_into_chunks text default_max_chunk_size)))]
  /\ sleeps (trace run) = [].
Proof.
  intros text.
  apply (small_paragraphs_are_summarized 4000 (lit "ok") text 7).
  - vm_compute. discriminate.
  - vm_compute. reflexivity.
  - intros p Hp. vm_compute in Hp.
    destruct Hp as [<- | [<- | []]]; vm_compute; discriminate.
  - vm_compute. discriminate.
Defined.

(** X19: while the service refuses every request for its volume, as it
    does when the tokens of the minute are spent, [groq_query] never waits:
    it chunks and asks again at once, at every depth, and neither returns
    nor raises. *)
Theorem token_limit_is_never_waited_for (cl : Client) (fuel : nat)
    (input_text : str) (delay : Z) (w : world cl) :
  always_oversize cl SYSTEM_PROMPT ->
  result (groq_query cl fuel input_text delay w) = OutOfFuel
  /\ sleeps (trace (groq_query cl fuel input_text delay w)) = [].
Proof. intros H. now apply always_oversize_never_waits. Qed.

Lemma token_limit_is_never_waited_for_witness :
  result (groq_query out_of_tokens 50 para1 default_delay tt) = OutOfFuel
  /\ sleeps (trace (groq_query out_of_tokens 50 para1 default_delay tt)) = [].
Proof.
  apply token_limit_is_never_waited_for.
  intros w user. exists (RateLimitError (lit "Rate limit reached: Tokens Per Minute (TPM)")), w.
  split; reflexivity.
Defined.

(** X20: the depth allowed does not change a run that ends: when
    [groq_query] returns or raises within a depth, it does the same, with
    the same requests and waits, within any larger depth. *)
Theorem ended_run_ignores_larger_depth (cl : Client) (fuel more : nat)
    (input_text : str) (delay : Z) (w w' : world cl)
    (o : outcome ChatCompletion) (tr : list event) :
  groq_query cl fuel input_text delay w = (o, w', tr) ->
  o <> OutOfFuel ->
  groq_query cl (fuel + more) input_text delay w = (o, w', tr).
Proof.
  intros H Ho. induction more as [|more IH].
  - now rewrite Nat.add_0_r.
  - rewrite Nat.add_succ_r. now apply groq_query_more_fuel.
Qed.

Lemma ended_run_ignores_larger_depth_witness :
  groq_query (busy_once (lit "ok")) (2 + 40) (lit "hello") 7 0%nat
  = (Returned {| content := lit "ok" |}, 2%nat,
     trace (groq_query (busy_once (lit "ok")) 2 (lit "hello") 7 0%nat)).
Proof.
  apply ended_run_ignores_larger_depth; [reflexivity | discriminate].
Defined.
